(** * bscpylgtv: the WebOsClient connection and command multiplexer

    A shallow embedding of [bscpylgtv/webos_client.py].  Python values that
    travel on the wire or sit in the state mirror are [pyval]s; the client
    object is a record; every [async def] is a term of a small resumption
    monad [coro] whose [Await] nodes are the suspension points of the
    coroutine, so that whatever the other tasks of the event loop do while
    the coroutine is suspended appears as an explicit change of the world
    between two atomic runs. *)

From stdpp Require Import base option list gmap strings.
From Stdlib Require Import ZArith Lia.

Set Default Proof Using "Type".
Set Warnings "-register-all".

(** ** Python values *)

(** What [json.loads] produces, plus opaque objects (a websocket
    connection).  Numbers are integers: no property below looks at a float. *)
Inductive pyval : Type :=
| PNone
| PBool (b : bool)
| PInt (n : Z)
| PStr (s : string)
| PList (l : list pyval)
| PDict (d : list (string * pyval))
| PObj (h : nat).

(** Keys of the dictionaries the client builds itself ([futures],
    [callbacks], [_apps], [_extinputs]): the hashable values, with [True]
    and [1] the same key as in Python. *)
Inductive pykey : Type :=
| KNone
| KInt (n : Z)
| KStr (s : string)
| KObj (h : nat).

#[global] Instance pykey_eq_dec : EqDecision pykey.
Proof. solve_decision. Defined.

Definition pykey_enc (k : pykey) : unit + Z + string + nat :=
  match k with
  | KNone => inl (inl (inl tt))
  | KInt n => inl (inl (inr n))
  | KStr s => inl (inr s)
  | KObj h => inr h
  end.

Definition pykey_dec (x : unit + Z + string + nat) : pykey :=
  match x with
  | inl (inl (inl _)) => KNone
  | inl (inl (inr n)) => KInt n
  | inl (inr s) => KStr s
  | inr h => KObj h
  end.

#[global] Instance pykey_countable : Countable pykey.
Proof.
  refine (inj_countable' pykey_enc pykey_dec _).
  intros []; reflexivity.
Defined.

(** ** Exceptions *)

(** The text of a [PyLGTVCmdException]; two of them quote the reply. *)
Inductive cmd_message : Type :=
| NotConnected                      (* "Not connected, can't execute command." *)
| InvalidResponse (response : pyval) (* f"Invalid request response {response}" *)
| RequestFailed (response : pyval)   (* f"Request failed with response {response}" *)
| CouldntExecuteInput.               (* "Couldn't execute input command." *)

Inductive exn : Type :=
| CancelledError
| TimeoutError
| ConnectionClosedError
| OSError
| KeyError
| TypeError
| AttributeError
| InvalidStateError
| PyLGTVPairException
| PyLGTVCmdException (m : cmd_message)
| PyLGTVCmdError (response : pyval)
| PyLGTVServiceNotFoundError (error : pyval).

(** [except Exception]: everything but [asyncio.CancelledError], which
    derives from [BaseException] (Python 3.8 and later). *)
Definition is_Exception (e : exn) : bool :=
  match e with CancelledError => false | _ => true end.

(** [except PyLGTVCmdException]: the class and its two subclasses. *)
Definition is_PyLGTVCmdException (e : exn) : bool :=
  match e with
  | PyLGTVCmdException _ | PyLGTVCmdError _ | PyLGTVServiceNotFoundError _ => true
  | _ => false
  end.

(** [except PyLGTVCmdError]: the class and [PyLGTVServiceNotFoundError]. *)
Definition is_PyLGTVCmdError (e : exn) : bool :=
  match e with
  | PyLGTVCmdError _ | PyLGTVServiceNotFoundError _ => true
  | _ => false
  end.

Definition is_PyLGTVServiceNotFoundError (e : exn) : bool :=
  match e with PyLGTVServiceNotFoundError _ => true | _ => false end.

Definition is_CancelledError (e : exn) : bool :=
  match e with CancelledError => true | _ => false end.

Inductive result (A : Type) : Type :=
| Ok (a : A)
| Err (e : exn).
Arguments Ok {A} a.
Arguments Err {A} e.

(** ** Operations on values *)

Definition is_None (v : pyval) : bool :=
  match v with PNone => true | _ => false end.

(** [v == "s"] for a string literal. *)
Definition eq_str (v : pyval) (s : string) : bool :=
  match v with PStr t => String.eqb t s | _ => false end.

(** Truth value of [v] in [if v], [not v], [a or b]. *)
Definition truthy (v : pyval) : bool :=
  match v with
  | PNone => false
  | PBool b => b
  | PInt n => negb (Z.eqb n 0)
  | PStr s => negb (String.eqb s "")
  | PList l => match l with [] => false | _ => true end
  | PDict d => match d with [] => false | _ => true end
  | PObj _ => true
  end.

Fixpoint assoc (k : string) (d : list (string * pyval)) : option pyval :=
  match d with
  | [] => None
  | (k', v) :: d' => if String.eqb k' k then Some v else assoc k d'
  end.

(** [v.get(k)]: only a dict has the method. *)
Definition py_get (v : pyval) (k : string) : result pyval :=
  match v with
  | PDict d => Ok (default PNone (assoc k d))
  | _ => Err AttributeError
  end.

(** [v[k]] with a string [k]. *)
Definition py_getitem (v : pyval) (k : string) : result pyval :=
  match v with
  | PDict d => match assoc k d with Some x => Ok x | None => Err KeyError end
  | _ => Err TypeError
  end.

(** [d[k] = x] on a dict: the entry is replaced where it stands, or added
    at the end. *)
Fixpoint assoc_set (k : string) (x : pyval) (d : list (string * pyval))
  : list (string * pyval) :=
  match d with
  | [] => [(k, x)]
  | (k', v) :: d' =>
      if String.eqb k' k then (k', x) :: d' else (k', v) :: assoc_set k x d'
  end.

(** The key a value is stored under, [None] for the unhashable lists and
    dicts ([TypeError] at the use). *)
Definition hashable (v : pyval) : option pykey :=
  match v with
  | PNone => Some KNone
  | PBool b => Some (KInt (if b then 1 else 0))
  | PInt n => Some (KInt n)
  | PStr s => Some (KStr s)
  | PObj h => Some (KObj h)
  | PList _ | PDict _ => None
  end.

(** [for x in v]: the elements of a list, the keys of a dict, the
    characters of a string; the other values are not iterable. *)
Fixpoint chars (s : string) : list pyval :=
  match s with
  | EmptyString => []
  | String c s' => PStr (String c EmptyString) :: chars s'
  end.

Definition py_iter (v : pyval) : result (list pyval) :=
  match v with
  | PList l => Ok l
  | PDict d => Ok (map (fun kv => PStr (fst kv)) d)
  | PStr s => Ok (chars s)
  | _ => Err TypeError
  end.

(** ** The client object and the world around it *)

(** The constructor arguments the modelled methods read. *)
Record settings : Type := Settings {
  ip : string;
  port : Z;
  timeout_connect : Z;
  ping_interval : option Z;
  ping_timeout : option Z;
  _volume_step_delay : option Z        (* milliseconds *)
}.

(** The mirrored state, one field per private attribute. *)
Record mirror : Type := Mirror {
  _power_state : pyval;
  _current_appId : pyval;
  _muted : pyval;
  _volume : pyval;
  _current_channel : pyval;
  _channel_info : pyval;
  _channels : pyval;
  _apps : gmap pykey pyval;
  _extinputs : gmap pykey pyval;
  _system_info : pyval;
  _software_info : pyval;
  _sound_output : pyval;
  _picture_settings : pyval
}.

(** [self].  Futures, tasks and callables are objects: the tables hold
    their handles.  [key_file_path], [web_socket] and [connect_task] are
    left out: no modelled method reads them. *)
Record client : Type := Client {
  cfg : settings;
  client_key : pyval;
  command_count : Z;
  connect_result : option nat;
  connection : pyval;
  input_connection : pyval;
  callbacks : gmap pykey nat;
  futures : gmap pykey nat;
  mirrored : mirror;
  state_update_callbacks : list nat;
  doStateUpdate : bool;
  _volume_step_lock : bool             (* asyncio.Lock: is it held *)
}.

(** An [asyncio.Future]. *)
Inductive fstate : Type :=
| FPending
| FResult (v : pyval)
| FException (e : exn)
| FCancelled.

Definition fstate_done (s : fstate) : bool :=
  match s with FPending => false | _ => true end.

(** What [asyncio.wait] is given at teardown: tasks, and the coroutine
    objects the observers return. *)
Inductive awaitee : Type :=
| ATask (t : nat)
| ACoroutine (observer : nat).

(** The coroutine an [asyncio.create_task] wraps. *)
Inductive task_body : Type :=
| consumer_handler_task (ws : pyval)
| ping_handler_task (ws : pyval) (interval : Z) (timeout : option Z)
| callback_handler_task (queue : nat) (callback : nat) (future : option nat)
| subscribe_task (i : nat)
| close_task (ws : pyval)
| wait_task (aws : list awaitee).

Record task : Type := Task {
  body : task_body;
  outcome : option (result pyval);     (* [None] while the task runs *)
  cancel_requested : bool
}.

(** Calls that settle a future, in the order they happen. *)
Inductive event : Type :=
| EvSetResult (f : nat) (v : pyval)
| EvSetException (f : nat) (e : exn)
| EvCancel (f : nat).

(** The client, the objects it points to, and the two locals of the one
    live [connect_handler] frame that its [finally] block reads. *)
Record world : Type := World {
  self : client;
  future_state : gmap nat fstate;
  task_state : gmap nat task;
  queue_state : gmap nat (list pyval);
  next_handle : nat;
  handler_tasks : list nat;
  ws : pyval;
  log : list event
}.

Definition set_client_key (x : pyval) (c : client) : client :=
  {| cfg := cfg c; client_key := x; command_count := command_count c;
     connect_result := connect_result c; connection := connection c;
     input_connection := input_connection c; callbacks := callbacks c;
     futures := futures c; mirrored := mirrored c;
     state_update_callbacks := state_update_callbacks c;
     doStateUpdate := doStateUpdate c; _volume_step_lock := _volume_step_lock c |}.

Definition set_command_count (x : Z) (c : client) : client :=
  {| cfg := cfg c; client_key := client_key c; command_count := x;
     connect_result := connect_result c; connection := connection c;
     input_connection := input_connection c; callbacks := callbacks c;
     futures := futures c; mirrored := mirrored c;
     state_update_callbacks := state_update_callbacks c;
     doStateUpdate := doStateUpdate c; _volume_step_lock := _volume_step_lock c |}.

Definition set_connection (x : pyval) (c : client) : client :=
  {| cfg := cfg c; client_key := client_key c; command_count := command_count c;
     connect_result := connect_result c; connection := x;
     input_connection := input_connection c; callbacks := callbacks c;
     futures := futures c; mirrored := mirrored c;
     state_update_callbacks := state_update_callbacks c;
     doStateUpdate := doStateUpdate c; _volume_step_lock := _volume_step_lock c |}.

Definition set_input_connection (x : pyval) (c : client) : client :=
  {| cfg := cfg c; client_key := client_key c; command_count := command_count c;
     connect_result := connect_result c; connection := connection c;
     input_connection := x; callbacks := callbacks c;
     futures := futures c; mirrored := mirrored c;
     state_update_callbacks := state_update_callbacks c;
     doStateUpdate := doStateUpdate c; _volume_step_lock := _volume_step_lock c |}.

Definition set_callbacks (x : gmap pykey nat) (c : client) : client :=
  {| cfg := cfg c; client_key := client_key c; command_count := command_count c;
     connect_result := connect_result c; connection := connection c;
     input_connection := input_connection c; callbacks := x;
     futures := futures c; mirrored := mirrored c;
     state_update_callbacks := state_update_callbacks c;
     doStateUpdate := doStateUpdate c; _volume_step_lock := _volume_step_lock c |}.

Definition set_futures (x : gmap pykey nat) (c : client) : client :=
  {| cfg := cfg c; client_key := client_key c; command_count := command_count c;
     connect_result := connect_result c; connection := connection c;
     input_connection := input_connection c; callbacks := callbacks c;
     futures := x; mirrored := mirrored c;
     state_update_callbacks := state_update_callbacks c;
     doStateUpdate := doStateUpdate c; _volume_step_lock := _volume_step_lock c |}.

Definition set_mirrored (x : mirror) (c : client) : client :=
  {| cfg := cfg c; client_key := client_key c; command_count := command_count c;
     connect_result := connect_result c; connection := connection c;
     input_connection := input_connection c; callbacks := callbacks c;
     futures := futures c; mirrored := x;
     state_update_callbacks := state_update_callbacks c;
     doStateUpdate := doStateUpdate c; _volume_step_lock := _volume_step_lock c |}.

Definition set_doStateUpdate (x : bool) (c : client) : client :=
  {| cfg := cfg c; client_key := client_key c; command_count := command_count c;
     connect_result := connect_result c; connection := connection c;
     input_connection := input_connection c; callbacks := callbacks c;
     futures := futures c; mirrored := mirrored c;
     state_update_callbacks := state_update_callbacks c;
     doStateUpdate := x; _volume_step_lock := _volume_step_lock c |}.

Definition set_volume_step_lock (x : bool) (c : client) : client :=
  {| cfg := cfg c; client_key := client_key c; command_count := command_count c;
     connect_result := connect_result c; connection := connection c;
     input_connection := input_connection c; callbacks := callbacks c;
     futures := futures c; mirrored := mirrored c;
     state_update_callbacks := state_update_callbacks c;
     doStateUpdate := doStateUpdate c; _volume_step_lock := x |}.

Definition set_power_state_field (x : pyval) (m : mirror) : mirror :=
  {| _power_state := x; _current_appId := _current_appId m; _muted := _muted m;
     _volume := _volume m; _current_channel := _current_channel m;
     _channel_info := _channel_info m; _channels := _channels m;
     _apps := _apps m; _extinputs := _extinputs m;
     _system_info := _system_info m; _software_info := _software_info m;
     _sound_output := _sound_output m; _picture_settings := _picture_settings m |}.

Definition set_apps_field (x : gmap pykey pyval) (m : mirror) : mirror :=
  {| _power_state := _power_state m; _current_appId := _current_appId m;
     _muted := _muted m; _volume := _volume m;
     _current_channel := _current_channel m;
     _channel_info := _channel_info m; _channels := _channels m;
     _apps := x; _extinputs := _extinputs m;
     _system_info := _system_info m; _software_info := _software_info m;
     _sound_output := _sound_output m; _picture_settings := _picture_settings m |}.

Definition set_volume_field (x : pyval) (m : mirror) : mirror :=
  {| _power_state := _power_state m; _current_appId := _current_appId m;
     _muted := _muted m; _volume := x;
     _current_channel := _current_channel m;
     _channel_info := _channel_info m; _channels := _channels m;
     _apps := _apps m; _extinputs := _extinputs m;
     _system_info := _system_info m; _software_info := _software_info m;
     _sound_output := _sound_output m; _picture_settings := _picture_settings m |}.

(** The values [__init__] and the [finally] block of [connect_handler]
    give the mirrored fields. *)
Definition mirror_unknown : mirror :=
  {| _power_state := PDict []; _current_appId := PNone; _muted := PNone;
     _volume := PNone; _current_channel := PNone; _channel_info := PNone;
     _channels := PNone; _apps := ∅; _extinputs := ∅; _system_info := PNone;
     _software_info := PNone; _sound_output := PNone;
     _picture_settings := PNone |}.

Definition with_self (f : client → client) (w : world) : world :=
  {| self := f (self w); future_state := future_state w;
     task_state := task_state w; queue_state := queue_state w;
     next_handle := next_handle w; handler_tasks := handler_tasks w;
     ws := ws w; log := log w |}.

Definition with_future_state (f : gmap nat fstate → gmap nat fstate) (w : world) : world :=
  {| self := self w; future_state := f (future_state w);
     task_state := task_state w; queue_state := queue_state w;
     next_handle := next_handle w; handler_tasks := handler_tasks w;
     ws := ws w; log := log w |}.

Definition with_task_state (f : gmap nat task → gmap nat task) (w : world) : world :=
  {| self := self w; future_state := future_state w;
     task_state := f (task_state w); queue_state := queue_state w;
     next_handle := next_handle w; handler_tasks := handler_tasks w;
     ws := ws w; log := log w |}.

Definition with_queue_state (f : gmap nat (list pyval) → gmap nat (list pyval))
    (w : world) : world :=
  {| self := self w; future_state := future_state w;
     task_state := task_state w; queue_state := f (queue_state w);
     next_handle := next_handle w; handler_tasks := handler_tasks w;
     ws := ws w; log := log w |}.

Definition with_next_handle (n : nat) (w : world) : world :=
  {| self := self w; future_state := future_state w;
     task_state := task_state w; queue_state := queue_state w;
     next_handle := n; handler_tasks := handler_tasks w;
     ws := ws w; log := log w |}.

Definition with_handler_tasks (ts : list nat) (w : world) : world :=
  {| self := self w; future_state := future_state w;
     task_state := task_state w; queue_state := queue_state w;
     next_handle := next_handle w; handler_tasks := ts;
     ws := ws w; log := log w |}.

Definition with_ws (x : pyval) (w : world) : world :=
  {| self := self w; future_state := future_state w;
     task_state := task_state w; queue_state := queue_state w;
     next_handle := next_handle w; handler_tasks := handler_tasks w;
     ws := x; log := log w |}.

Definition with_log (e : event) (w : world) : world :=
  {| self := self w; future_state := future_state w;
     task_state := task_state w; queue_state := queue_state w;
     next_handle := next_handle w; handler_tasks := handler_tasks w;
     ws := ws w; log := log w ++ [e] |}.

(** ** Coroutines *)

(** The suspension points: what the coroutine hands to the event loop. *)
Inductive awaitable : Type :=
| AwConnect (ip : string) (port : Z) (timeout : Z)
    (* asyncio.wait_for(websockets.connect(f"ws://{ip}:{port}", ...), timeout) *)
| AwConnectPath (path : pyval) (timeout : Z)
    (* asyncio.wait_for(websockets.connect(inputsockpath, ...), timeout) *)
| AwSend (conn : pyval) (data : pyval)     (* conn.send(json.dumps(data)), or conn.send(data) *)
| AwRecv (conn : pyval)                    (* json.loads(await conn.recv()) *)
| AwWriteClientKey                         (* run_in_executor(None, self.write_client_key) *)
| AwFuture (f : nat)                       (* a pending future *)
| AwQueueGet (q : nat)                     (* queue.get() on an empty queue *)
| AwCallback (callback : nat) (payload : pyval)   (* a consumer that is not modelled *)
| AwWait (ts : list nat) (first_completed : bool) (* asyncio.wait(tasks, return_when=...) *)
| AwGather (observers : list nat)          (* asyncio.gather of the observers' coroutines *)
| AwShield (t : nat)                       (* asyncio.shield(task) *)
| AwSleep (ms : Z)                         (* asyncio.sleep(delay.total_seconds()) *)
| AwLock.                                  (* a held asyncio.Lock *)

(** A coroutine reads and writes the world, returns, raises, or suspends
    on an awaitable and goes on with what it is woken with: a value, or an
    exception thrown into it.  [OutOfFuel] ends a loop whose fuel is spent. *)
Inductive coro (A : Type) : Type :=
| Ret (a : A)
| Raise (e : exn)
| Get (k : world → coro A)
| Put (w : world) (k : coro A)
| Await (a : awaitable) (k : result pyval → coro A)
| OutOfFuel.
Arguments Ret {A} a.
Arguments Raise {A} e.
Arguments Get {A} k.
Arguments Put {A} w k.
Arguments Await {A} a k.
Arguments OutOfFuel {A}.

Fixpoint bind {A B} (p : coro A) (f : A → coro B) : coro B :=
  match p with
  | Ret a => f a
  | Raise e => Raise e
  | Get k => Get (λ w, bind (k w) f)
  | Put w k => Put w (bind k f)
  | Await a k => Await a (λ x, bind (k x) f)
  | OutOfFuel => OutOfFuel
  end.

Declare Scope coro_scope.
Delimit Scope coro_scope with coro.
Notation "x ← p ; q" := (bind p (λ x, q))
  (at level 20, p at level 100, q at level 200, only parsing) : coro_scope.
Notation "p ;; q" := (bind p (λ _, q))
  (at level 100, q at level 200, only parsing, right associativity) : coro_scope.
Local Open Scope coro_scope.

(** The body of a [try]: its outcome as a value. *)
Fixpoint attempt {A} (p : coro A) : coro (result A) :=
  match p with
  | Ret a => Ret (Ok a)
  | Raise e => Ret (Err e)
  | Get k => Get (λ w, attempt (k w))
  | Put w k => Put w (attempt k)
  | Await a k => Await a (λ x, attempt (k x))
  | OutOfFuel => OutOfFuel
  end.

Definition lift {A} (r : result A) : coro A :=
  match r with Ok a => Ret a | Err e => Raise e end.

(** [try: p except ...: h]; [h e] is [None] when no clause matches [e]. *)
Definition try_except {A} (p : coro A) (h : exn → option (coro A)) : coro A :=
  r ← attempt p;
  match r with
  | Ok a => Ret a
  | Err e => match h e with Some q => q | None => Raise e end
  end.

(** [try: p finally: fin]. *)
Definition try_finally {A} (p : coro A) (fin : coro unit) : coro A :=
  r ← attempt p; fin;; lift r.

Definition get : coro world := Get Ret.
Definition put (w : world) : coro unit := Put w (Ret tt).
Definition modify (f : world → world) : coro unit := Get (λ w, Put (f w) (Ret tt)).
Definition await (a : awaitable) : coro pyval := Await a lift.

(** [for x in l: f x]. *)
Fixpoint for_each {A} (l : list A) (f : A → coro unit) : coro unit :=
  match l with
  | [] => Ret tt
  | x :: l' => f x;; for_each l' f
  end.

(** *** Running a coroutine *)

Inductive status (A : Type) : Type :=
| Finished (r : result A)
| Blocked (a : awaitable) (k : result pyval → coro A)
| Exhausted.
Arguments Finished {A} r.
Arguments Blocked {A} a k.
Arguments Exhausted {A}.

(** One atomic run: up to the next suspension point or to the end. *)
Fixpoint run {A} (p : coro A) (w : world) : world * status A :=
  match p with
  | Ret a => (w, Finished (Ok a))
  | Raise e => (w, Finished (Err e))
  | Get k => run (k w) w
  | Put w' k => run k w'
  | Await a k => (w, Blocked a k)
  | OutOfFuel => (w, Exhausted)
  end.

(** What happens while the coroutine is suspended: the other tasks change
    the world, then the coroutine is woken. *)
Record reaction : Type := Reaction {
  interfere : world → world;
  wake : result pyval
}.

(** The run of a coroutine against a script of reactions, one for each
    suspension, and what is left of the script. *)
Fixpoint exec {A} (s : list reaction) (p : coro A) (w : world)
  : world * status A * list reaction :=
  match s with
  | [] => (run p w, [])
  | r :: s' =>
      match run p w with
      | (w1, Blocked a k) => exec s' (k (wake r)) (interfere r w1)
      | (w1, st) => (w1, st, s)
      end
  end.

(** No other task runs while the coroutine is suspended. *)
Definition quiet (x : result pyval) : reaction :=
  {| interfere := λ w, w; wake := x |}.

(** The awaitables the coroutine suspends on along that run. *)
Fixpoint suspensions {A} (s : list reaction) (p : coro A) (w : world)
  : list awaitable :=
  match run p w with
  | (w1, Blocked a k) =>
      a :: match s with
           | [] => []
           | r :: s' => suspensions s' (k (wake r)) (interfere r w1)
           end
  | _ => []
  end.

(** The script [s] respects the rely [R]: the world a reaction leaves is
    related to the world it found. *)
Definition respects (R : world → world → Prop) (s : list reaction) : Prop :=
  Forall (λ r, ∀ x, R x (interfere r x)) s.

(** [wp R B Q p w]: started in [w] and suspended only among tasks that
    respect [R], the coroutine [p] suspends only on awaitables and in
    worlds that satisfy [B], and can only finish with an outcome and in a
    world that satisfy [Q]. *)
Fixpoint wp {A} (R : world → world → Prop) (B : awaitable → world → Prop)
    (Q : result A → world → Prop) (p : coro A) (w : world) : Prop :=
  match p with
  | Ret a => Q (Ok a) w
  | Raise e => Q (Err e) w
  | Get k => wp R B Q (k w) w
  | Put w' k => wp R B Q k w'
  | Await a k => B a w ∧ ∀ w' x, R w w' → wp R B Q (k x) w'
  | OutOfFuel => True
  end.

(** No condition on the suspensions, none on the other tasks. *)
Definition anywhere : awaitable → world → Prop := λ _ _, True.
Definition anything : world → world → Prop := λ _ _, True.

(** ** Futures, tasks and queues *)

Definition fstate_of (w : world) (f : nat) : fstate :=
  default FPending (future_state w !! f).

(** [asyncio.Future()] *)
Definition new_future : coro nat :=
  w ← get;
  let f := next_handle w in
  put (with_next_handle (S f) (with_future_state (insert f FPending) w));;
  Ret f.

(** [f.done()] *)
Definition future_done (f : nat) : coro bool :=
  w ← get; Ret (fstate_done (fstate_of w f)).

(** [f.set_result(v)]: refused on a future that is done. *)
Definition future_set_result (f : nat) (v : pyval) : coro unit :=
  w ← get;
  if fstate_done (fstate_of w f) then Raise InvalidStateError
  else put (with_log (EvSetResult f v) (with_future_state (insert f (FResult v)) w)).

(** [f.set_exception(e)] *)
Definition future_set_exception (f : nat) (e : exn) : coro unit :=
  w ← get;
  if fstate_done (fstate_of w f) then Raise InvalidStateError
  else put (with_log (EvSetException f e) (with_future_state (insert f (FException e)) w)).

(** [f.cancel()]: nothing happens to a future that is done. *)
Definition future_cancel (f : nat) : coro unit :=
  w ← get;
  if fstate_done (fstate_of w f) then Ret tt
  else put (with_log (EvCancel f) (with_future_state (insert f FCancelled) w)).

(** [await f], as [Future.__await__] has it: a future that is done does
    not suspend; a waiter woken with a value reads the result, and one
    woken before the future is done gets a [RuntimeError], here
    [InvalidStateError]. *)
Definition future_result (f : nat) : coro pyval :=
  w ← get;
  match fstate_of w f with
  | FResult v => Ret v
  | FException e => Raise e
  | FCancelled => Raise CancelledError
  | FPending => Raise InvalidStateError
  end.

Definition await_future (f : nat) : coro pyval :=
  done ← future_done f;
  if done then future_result f
  else Await (AwFuture f)
         (λ x, match x with Ok _ => future_result f | Err e => Raise e end).

(** [asyncio.create_task(...)] *)
Definition create_task (b : task_body) : coro nat :=
  w ← get;
  let t := next_handle w in
  put (with_next_handle (S t)
         (with_task_state (insert t {| body := b; outcome := None;
                                       cancel_requested := false |}) w));;
  Ret t.

(** [t.done()] *)
Definition task_done (t : nat) : coro bool :=
  w ← get;
  Ret (match task_state w !! t with
        | Some tk => match outcome tk with Some _ => true | None => false end
        | None => false
        end).

(** [t.cancel()] *)
Definition task_cancel (t : nat) : coro unit :=
  modify (with_task_state
            (alter (λ tk, {| body := body tk; outcome := outcome tk;
                             cancel_requested := true |}) t)).

(** [t.result()] *)
Definition task_result (t : nat) : coro pyval :=
  w ← get;
  match task_state w !! t with
  | Some tk => match outcome tk with
               | Some r => lift r
               | None => Raise InvalidStateError
               end
  | None => Raise InvalidStateError
  end.

(** [asyncio.Queue()]; [queue_state] keeps what was put on a queue, in
    order of arrival. *)
Definition new_queue : coro nat :=
  w ← get;
  let q := next_handle w in
  put (with_next_handle (S q) (with_queue_state (insert q []) w));;
  Ret q.

(** [q.put_nowait(msg)] *)
Definition put_nowait (q : nat) (msg : pyval) : coro unit :=
  modify (with_queue_state (alter (λ l, l ++ [msg]) q)).

(** ** Low level request handling *)

(** [uid = self.command_count; self.command_count += 1] *)
Definition next_command_count : coro Z :=
  w ← get;
  let uid := command_count (self w) in
  put (with_self (set_command_count (uid + 1)) w);;
  Ret uid.

(** [self.futures[uid] = res] *)
Definition futures_setitem (uid : pyval) (res : nat) : coro unit :=
  match hashable uid with
  | Some k => modify (with_self (λ c, set_futures (<[k := res]> (futures c)) c))
  | None => Raise TypeError
  end.

(** [del self.futures[uid]] *)
Definition futures_delitem (uid : pyval) : coro unit :=
  match hashable uid with
  | Some k =>
      w ← get;
      match futures (self w) !! k with
      | Some _ => put (with_self (λ c, set_futures (delete k (futures c)) c) w)
      | None => Raise KeyError
      end
  | None => Raise TypeError
  end.

(** [uid in self.futures] *)
Definition futures_contains (uid : pyval) : coro bool :=
  match hashable uid with
  | Some k => w ← get; Ret (bool_decide (is_Some (futures (self w) !! k)))
  | None => Raise TypeError
  end.

(** [del self.callbacks[uid]] *)
Definition callbacks_delitem (k : pykey) : coro unit :=
  w ← get;
  match callbacks (self w) !! k with
  | Some _ => put (with_self (λ c, set_callbacks (delete k (callbacks c)) c) w)
  | None => Raise KeyError
  end.

(** The frame [command] builds; it goes out as [json.dumps(message)]. *)
Definition message (uid : pyval) (request_type uri : string) (payload : pyval)
  : pyval :=
  PDict [("id", uid); ("type", PStr request_type);
         ("uri", PStr ("ssap://" +:+ uri)); ("payload", payload)].

Definition command (request_type uri : string) (payload uid : pyval) : coro unit :=
  uid ← (if is_None uid then n ← next_command_count; Ret (PInt n) else Ret uid);
  let payload := if is_None payload then PDict [] else payload in
  let message := message uid request_type uri payload in
  w ← get;
  if is_None (connection (self w))
  then Raise (PyLGTVCmdException NotConnected)
  else await (AwSend (connection (self w)) message);; Ret tt.

(** The end of [request], from [payload = response.get("payload")] on:
    what the caller gets for the reply [response]. *)
Definition request_result (response : pyval) : coro pyval :=
  payload ← lift (py_get response "payload");
  if is_None payload
  then Raise (PyLGTVCmdException (InvalidResponse response))
  else
    rv ← lift (py_get payload "returnValue");
    returnValue ← (if truthy rv then Ret rv else lift (py_get payload "subscribed"));
    type ← lift (py_get response "type");
    if eq_str type "error"
    then
      error ← lift (py_get response "error");
      if eq_str error "404 no such service or method"
      then Raise (PyLGTVServiceNotFoundError error)
      else Raise (PyLGTVCmdError response)
    else if is_None returnValue
    then Raise (PyLGTVCmdException (InvalidResponse response))
    else if negb (truthy returnValue)
    then Raise (PyLGTVCmdException (RequestFailed response))
    else Ret payload.

Definition request (uri : string) (payload : pyval) (cmd_type : string)
    (uid : pyval) : coro pyval :=
  uid ← (if is_None uid then n ← next_command_count; Ret (PInt n) else Ret uid);
  res ← new_future;
  futures_setitem uid res;;
  try_except (command cmd_type uri payload uid)
    (λ e, if is_CancelledError e || is_PyLGTVCmdException e
          then Some (futures_delitem uid;; Raise e) else None);;
  response ← try_except (await_future res)
    (λ e, if is_CancelledError e
          then Some (present ← futures_contains uid;
                     (if present then futures_delitem uid else Ret tt);;
                     Raise e)
          else None);
  futures_delitem uid;;
  request_result response.

Definition subscribe (callback : nat) (uri : string) (payload : pyval)
  : coro pyval :=
  uid ← next_command_count;
  modify (with_self (λ c, set_callbacks (<[KInt uid := callback]> (callbacks c)) c));;
  try_except (request uri payload "subscribe" (PInt uid))
    (λ e, if is_Exception e
          then Some (callbacks_delitem (KInt uid);; Raise e) else None).

(** ** The inbound dispatcher *)

(** The two local tables of [consumer_handler]. *)
Record dispatcher : Type := Dispatcher {
  callback_queues : gmap pykey nat;
  callback_tasks : gmap pykey nat
}.

(** The body of the [async for] loop of [consumer_handler], for the frame
    [msg = json.loads(raw_msg)].  The parameters [callbacks] and [futures]
    are the dictionaries [connect_handler] has just stored in [self], so
    the test reads them there. *)
Definition consumer_frame (d : dispatcher) (msg : pyval) : coro dispatcher :=
  w ← get;
  if bool_decide (callbacks (self w) = ∅) && bool_decide (futures (self w) = ∅)
  then Ret d
  else
    uid ← lift (py_get msg "id");
    key ← match hashable uid with Some k => Ret k | None => Raise TypeError end;
    let callback := callbacks (self w) !! key in
    let future := futures (self w) !! key in
    match callback with
    | Some cb =>
        d ← match callback_tasks d !! key with
            | Some _ => Ret d
            | None =>
                queue ← new_queue;
                t ← create_task (callback_handler_task queue cb future);
                Ret {| callback_queues := <[key := queue]> (callback_queues d);
                       callback_tasks := <[key := t]> (callback_tasks d) |}
            end;
        match callback_queues d !! key with
        | Some queue => put_nowait queue msg;; Ret d
        | None => Raise KeyError
        end
    | None =>
        match future with
        | Some f =>
            done ← future_done f;
            if negb done then future_set_result f msg;; Ret d else Ret d
        | None => Ret d
        end
    end.

(** The loop over the frames the transport delivers. *)
Fixpoint consumer_frames (d : dispatcher) (msgs : list pyval) : coro dispatcher :=
  match msgs with
  | [] => Ret d
  | msg :: msgs' => d' ← consumer_frame d msg; consumer_frames d' msgs'
  end.

(** The end of a turn of [callback_handler]:
    [if future is not None and not future.done(): future.set_result(msg)] *)
Definition callback_handler_resolve (future : option nat) (msg : pyval)
  : coro unit :=
  match future with
  | Some f =>
      done ← future_done f;
      if negb done then future_set_result f msg else Ret tt
  | None => Ret tt
  end.

(** One turn of the [while True] loop of [callback_handler]; the message is
    what [queue.get()] hands over. *)
Definition callback_handler_turn (queue callback : nat) (future : option nat)
  : coro unit :=
  msg ← await (AwQueueGet queue);
  payload ← lift (py_get msg "payload");
  await (AwCallback callback payload);;
  callback_handler_resolve future msg.

(** ** The state mirror *)

Definition do_state_update_callbacks : coro unit :=
  w ← get;
  match state_update_callbacks (self w) with
  | [] => Ret tt
  | callbacks => await (AwGather callbacks);; Ret tt
  end.

(** The end of every consumer:
    [if self.state_update_callbacks and self.doStateUpdate: ...] *)
Definition notify_observers : coro unit :=
  w ← get;
  match state_update_callbacks (self w) with
  | [] => Ret tt
  | _ => if doStateUpdate (self w) then do_state_update_callbacks else Ret tt
  end.

Definition set_power_state (payload : pyval) : coro unit :=
  modify (with_self (λ c, set_mirrored (set_power_state_field payload (mirrored c)) c));;
  notify_observers.

Definition set_volume_state (volume : pyval) : coro unit :=
  modify (with_self (λ c, set_mirrored (set_volume_field volume (mirrored c)) c));;
  notify_observers.

(** [self._apps[key] = value] *)
Definition apps_setitem (key value : pyval) : coro unit :=
  match hashable key with
  | Some k =>
      modify (with_self (λ c,
        set_mirrored (set_apps_field (<[k := value]> (_apps (mirrored c))) (mirrored c)) c))
  | None => Raise TypeError
  end.

(** [del self._apps[key]] *)
Definition apps_delitem (key : pyval) : coro unit :=
  match hashable key with
  | Some k =>
      w ← get;
      match _apps (mirrored (self w)) !! k with
      | Some _ =>
          put (with_self (λ c,
            set_mirrored (set_apps_field (delete k (_apps (mirrored c))) (mirrored c)) c) w)
      | None => Raise KeyError
      end
  | None => Raise TypeError
  end.

(** The two branches of [set_apps_state]: a full catalogue, and a change
    to one app. *)
Definition set_apps_catalogue (apps : pyval) : coro unit :=
  modify (with_self (λ c, set_mirrored (set_apps_field ∅ (mirrored c)) c));;
  apps ← lift (py_iter apps);
  for_each apps (λ app, id ← lift (py_getitem app "id"); apps_setitem id app).

Definition set_apps_change (payload : pyval) : coro unit :=
  change ← lift (py_getitem payload "change");
  app_id ← lift (py_getitem payload "id");
  if eq_str change "removed"
  then apps_delitem app_id
  else apps_setitem app_id payload.

Definition set_apps_state (payload : pyval) : coro unit :=
  apps ← lift (py_get payload "launchPoints");
  (if negb (is_None apps)
   then set_apps_catalogue apps
   else set_apps_change payload);;
  notify_observers.

Definition is_on (c : client) : result bool :=
  match py_get (_power_state (mirrored c)) "state" with
  | Err e => Err e
  | Ok state =>
      if eq_str state "Unknown"
      then
        if is_None (_current_appId (mirrored c)) || eq_str (_current_appId (mirrored c)) ""
        then Ok false
        else Ok true
      else if is_None state || eq_str state "Power Off" || eq_str state "Suspend"
              || eq_str state "Active Standby"
      then Ok false
      else Ok true
  end.

Definition is_screen_on (c : client) : result bool :=
  match is_on c with
  | Err e => Err e
  | Ok true =>
      match py_get (_power_state (mirrored c)) "state" with
      | Err e => Err e
      | Ok state => Ok (negb (eq_str state "Screen Off"))
      end
  | Ok false => Ok false
  end.

(** ** The command catalogue and the connection *)

(** [endpoints.py] and [handshake.py] are not part of the sources at hand:
    the service paths and the registration message are parameters. *)
Record endpoints : Type := Endpoints {
  GET_POWER_STATE : string;
  GET_CURRENT_APP_INFO : string;
  GET_AUDIO_STATUS : string;
  GET_VOLUME : string;
  GET_APPS : string;
  GET_INPUTS : string;
  GET_SOUND_OUTPUT : string;
  GET_SYSTEM_SETTINGS : string;
  INPUT_SOCKET : string;
  SET_VOLUME : string;
  VOLUME_UP : string;
  VOLUME_DOWN : string
}.

Definition SOUND_OUTPUTS_TO_DELAY_CONSECUTIVE_VOLUME_STEPS : gset pykey :=
  {[ KStr "external_arc" ]}.

Section Catalogue.
Variable ep : endpoints.
Variable REGISTRATION_MESSAGE : pyval.

(** [copy.deepcopy(REGISTRATION_MESSAGE)] with
    [handshake["payload"]["client-key"] = self.client_key]. *)
Definition registration_msg (c : client) : result pyval :=
  match REGISTRATION_MESSAGE with
  | PDict d =>
      match assoc "payload" d with
      | Some (PDict p) =>
          Ok (PDict (assoc_set "payload"
                       (PDict (assoc_set "client-key" (client_key c) p)) d))
      | Some _ => Err TypeError
      | None => Err KeyError
      end
  | _ => Err TypeError
  end.

(** The pairing exchange of [connect_handler], from the registration
    frame to [raise PyLGTVPairException("Unable to pair")]. *)
Definition pairing (ws : pyval) : coro unit :=
  w ← get;
  handshake ← lift (registration_msg (self w));
  await (AwSend ws handshake);;
  response ← await (AwRecv ws);
  type ← lift (py_getitem response "type");
  prompt ← (if eq_str type "response"
            then payload ← lift (py_getitem response "payload");
                 pairingType ← lift (py_getitem payload "pairingType");
                 Ret (eq_str pairingType "PROMPT")
            else Ret false);
  (if prompt : bool
   then
     response ← await (AwRecv ws);
     type ← lift (py_getitem response "type");
     if eq_str type "registered"
     then payload ← lift (py_getitem response "payload");
          key ← lift (py_getitem payload "client-key");
          modify (with_self (set_client_key key));;
          await AwWriteClientKey;;
          Ret tt
     else Ret tt
   else Ret tt);;
  w ← get;
  if negb (truthy (client_key (self w)))
  then Raise PyLGTVPairException
  else Ret tt.

(** [subscribe_coros]: every entry of the set literal is commented out, so
    it is the empty value. *)
Definition subscribe_coros : list nat := [].

(** [handler_tasks.add(asyncio.create_task(...))] *)
Definition add_handler_task (b : task_body) : coro unit :=
  t ← create_task b;
  modify (λ w, with_handler_tasks (handler_tasks w ++ [t]) w).

(** The [try] block of [connect_handler], phase by phase.  First the
    tables are reset and the handler tasks started, from
    [self.callbacks = {}] to [self.connection = ws]. *)
Definition start_handlers (ws : pyval) : coro unit :=
  modify (with_self (set_callbacks ∅));;
  modify (with_self (set_futures ∅));;
  add_handler_task (consumer_handler_task ws);;
  w ← get;
  (match ping_interval (cfg (self w)) with
   | Some interval =>
       add_handler_task (ping_handler_task ws interval (ping_timeout (cfg (self w))))
   | None => Ret tt
   end);;
  modify (with_self (set_connection ws)).

(** Then the static state and the subscriptions, from
    [self.doStateUpdate = False] to the placeholder power state. *)
Definition baseline_subscriptions : coro unit :=
  modify (with_self (set_doStateUpdate false));;
  (match subscribe_coros with
   | [] => Ret tt
   | coros =>
       subscribe_tasks ←
         (fix go (l : list nat) : coro (list nat) :=
            match l with
            | [] => Ret []
            | coro :: l' =>
                t ← create_task (subscribe_task coro); ts ← go l'; Ret (t :: ts)
            end) coros;
       await (AwWait subscribe_tasks false);;
       for_each subscribe_tasks (λ t,
         try_except (task_result t;; Ret tt)
           (λ e, if is_PyLGTVServiceNotFoundError e then Some (Ret tt) else None))
   end);;
  w ← get;
  if negb (truthy (_power_state (mirrored (self w))))
  then modify (with_self (λ c,
         set_mirrored (set_power_state_field (PDict [("state", PStr "Unknown")])
                         (mirrored c)) c))
  else Ret tt.

(** Then the ready flag, the observers and the connect result. *)
Definition signal_ready (res : nat) : coro unit :=
  modify (with_self (set_doStateUpdate true));;
  w ← get;
  (match state_update_callbacks (self w) with
   | [] => Ret tt
   | _ => do_state_update_callbacks
   end);;
  future_set_result res (PBool true).

Definition connect_handler_try (res : nat) : coro unit :=
  w ← get;
  ws ← await (AwConnect (ip (cfg (self w))) (port (cfg (self w)))
                (timeout_connect (cfg (self w))));
  modify (with_ws ws);;
  pairing ws;;
  start_handlers ws;;
  baseline_subscriptions;;
  signal_ready res;;
  w ← get;
  await (AwWait (handler_tasks w) true);;
  Ret tt.

(** [while not task.done(): try: await asyncio.shield(task)
    except asyncio.CancelledError: pass], for at most [fuel] turns. *)
Fixpoint shield_loop (fuel : nat) (t : nat) : coro unit :=
  done ← task_done t;
  if done : bool then Ret tt
  else
    match fuel with
    | 0 => OutOfFuel
    | S fuel' =>
        try_except (await (AwShield t);; Ret tt)
          (λ e, if is_CancelledError e then Some (Ret tt) else None);;
        shield_loop fuel' t
    end.

(** The [finally] block of [connect_handler]. *)
Definition connect_handler_finally (fuel : nat) : coro unit :=
  w ← get;
  for_each (handler_tasks w)
    (λ t, done ← task_done t; if negb done then task_cancel t else Ret tt);;
  w ← get;
  for_each (map snd (map_to_list (futures (self w)))) future_cancel;;
  w ← get;
  let closeout := map ATask (handler_tasks w) in
  closeout ← (if negb (is_None (ws w))
              then t ← create_task (close_task (ws w)); Ret (closeout ++ [ATask t])
              else Ret closeout);
  w ← get;
  closeout ← (if negb (is_None (input_connection (self w)))
              then t ← create_task (close_task (input_connection (self w)));
                   Ret (closeout ++ [ATask t])
              else Ret closeout);
  modify (with_self (set_connection PNone));;
  modify (with_self (set_input_connection PNone));;
  modify (with_self (set_doStateUpdate false));;
  modify (with_self (set_mirrored mirror_unknown));;
  w ← get;
  let closeout := closeout ++ map ACoroutine (state_update_callbacks (self w)) in
  match closeout with
  | [] => Ret tt
  | _ => closeout_task ← create_task (wait_task closeout);
         shield_loop fuel closeout_task
  end.

Definition connect_handler (fuel : nat) (res : nat) : coro unit :=
  modify (with_handler_tasks []);;
  modify (with_ws PNone);;
  try_finally
    (try_except (connect_handler_try res)
       (λ ex, if is_Exception ex
              then Some (done ← future_done res;
                         if negb done then future_set_exception res ex else Ret tt)
              else None))
    (connect_handler_finally fuel).

(** ** The auxiliary input connection *)

(** The [try] block of [input_command]. *)
Definition input_command_try (message : pyval) : coro unit :=
  w ← get;
  (if is_None (input_connection (self w))
   then
     sockres ← request (INPUT_SOCKET ep) PNone "request" PNone;
     inputsockpath ← lift (py_get sockres "socketPath");
     w ← get;
     inputws ← await (AwConnectPath inputsockpath (timeout_connect (cfg (self w))));
     modify (with_self (set_input_connection inputws))
   else Ret tt);;
  w ← get;
  if is_None (input_connection (self w))
  then Raise (PyLGTVCmdException CouldntExecuteInput)
  else await (AwSend (input_connection (self w)) message);; Ret tt.

(** Its [except Exception as ex] clause; [self.connect_result] is [None]
    until [connect] is first called. *)
Definition input_command_except (ex : exn) : coro unit :=
  w ← get;
  match connect_result (self w) with
  | None => Raise AttributeError
  | Some res =>
      done ← future_done res;
      if negb done then future_set_exception res ex else Ret tt
  end.

Definition input_command (message : pyval) : coro unit :=
  try_except (input_command_try message)
    (λ ex, if is_Exception ex then Some (input_command_except ex) else None).

(** [f"type:button\nname:{name}\n\n"] *)
Definition button (name : string) : coro unit :=
  let nl := String (Ascii.ascii_of_nat 10) EmptyString in
  input_command (PStr ("type:button" +:+ nl +:+ "name:" +:+ name +:+ nl +:+ nl)).

(** ** Volume *)

Definition set_volume (volume : Z) : coro pyval :=
  let volume := Z.max 0 volume in
  request (SET_VOLUME ep) (PDict [("volume", PInt volume)]) "request" PNone.

(** [async with self._volume_step_lock]: entering takes a free lock at
    once and waits for a held one; leaving frees it. *)
Definition lock_acquire : coro unit :=
  w ← get;
  (if _volume_step_lock (self w) then await AwLock;; Ret tt else Ret tt);;
  modify (with_self (set_volume_step_lock true)).

Definition lock_release : coro unit :=
  modify (with_self (set_volume_step_lock false)).

Definition _volume_step (endpoint : string) : coro pyval :=
  w ← get;
  delay ← match hashable (_sound_output (mirrored (self w))) with
          | None => Raise TypeError
          | Some k =>
              Ret (if bool_decide (k ∈ SOUND_OUTPUTS_TO_DELAY_CONSECUTIVE_VOLUME_STEPS)
                   then _volume_step_delay (cfg (self w)) else None)
          end;
  match delay with
  | Some ms =>
      lock_acquire;;
      try_finally
        (response ← request endpoint PNone "request" PNone;
         await (AwSleep ms);;
         Ret response)
        lock_release
  | None => request endpoint PNone "request" PNone
  end.

Definition volume_up : coro pyval := _volume_step (VOLUME_UP ep).
Definition volume_down : coro pyval := _volume_step (VOLUME_DOWN ep).

End Catalogue.

(** The key an app of a catalogue is filed under: [app["id"]], when the
    app has one and it is hashable. *)
Definition app_key (app : pyval) : option pykey :=
  match py_getitem app "id" with
  | Ok id => hashable id
  | Err _ => None
  end.

(** The mapping the catalogue loop of [set_apps_state] builds on top of
    [m]: a later app replaces an earlier one with the same id. *)
Definition apps_of (apps : list pyval) (m : gmap pykey pyval) : gmap pykey pyval :=
  foldl (λ m app, match app_key app with
                  | Some k => <[k := app]> m
                  | None => m
                  end) m apps.

(** The apps mapping once the consumer has run, up to where it hands over
    to the observers. *)
Definition apps_after (payload : pyval) (w : world) : gmap pykey pyval :=
  _apps (mirrored (self (fst (run (set_apps_state payload) w)))).

(** What the dispatcher, with tables [d], does to the world when the
    transport hands it the frame [msg]; and the reaction that wakes a
    coroutine after that. *)
Definition deliver (d : dispatcher) (msg : pyval) (w : world) : world :=
  fst (run (consumer_frame d msg) w).

Definition delivery (d : dispatcher) (msg : pyval) : reaction :=
  {| interfere := deliver d msg; wake := Ok PNone |}.

Definition no_subscriptions : dispatcher :=
  {| callback_queues := ∅; callback_tasks := ∅ |}.

(** The world [subscribe] leaves when it calls [request]: the identifier
    is taken and the consumer is registered under it. *)
Definition subscribed (callback : nat) (w : world) : world :=
  with_self (λ c, set_callbacks
                    (<[KInt (command_count (self w)) := callback]> (callbacks c)) c)
    (with_self (set_command_count (command_count (self w) + 1)) w).

(** The two places where a future gets its result: the dispatcher, on a
    frame, and a delivery worker, at the end of a turn. *)
Inductive resolver : Type :=
| Dispatching (d : dispatcher) (msg : pyval)
| Delivering (future : option nat) (msg : pyval).

Definition resolve (w : world) (r : resolver) : world :=
  match r with
  | Dispatching d msg => deliver d msg w
  | Delivering future msg => fst (run (callback_handler_resolve future msg) w)
  end.

(** How many times [set_result] was called on the future [f]. *)
Definition is_resolution (f : nat) (ev : event) : bool :=
  match ev with
  | EvSetResult f' _ => Nat.eqb f' f
  | _ => false
  end.

Fixpoint resolutions (f : nat) (l : list event) : nat :=
  match l with
  | [] => 0
  | ev :: l' => (if is_resolution f ev then 1 else 0) + resolutions f l'
  end.

(** The client is disconnected and its mirror is reset; and the rely of
    the teardown: a task that finds the client so leaves it so (the
    consumers write the mirror for the frames of a live connection). *)
Definition reset (w : world) : Prop :=
  connection (self w) = PNone ∧ mirrored (self w) = mirror_unknown.

Definition stays_reset (x y : world) : Prop := reset x → reset y.

(** The awaitable a coroutine is left suspended on. *)
Definition blocked_on {A} (st : status A) : option awaitable :=
  match st with
  | Blocked a _ => Some a
  | _ => None
  end.

(** The rely of the connect: the other tasks leave the client object, the
    tasks and the locals of [connect_handler] alone. *)
Definition client_untouched (x y : world) : Prop :=
  self y = self x ∧ task_state y = task_state x
  ∧ handler_tasks y = handler_tasks x ∧ ws y = ws x.

Definition running_task (w : world) (t : nat) (b : task_body) : Prop :=
  task_state w !! t = Some {| body := b; outcome := None;
                              cancel_requested := false |}.

(** The handler tasks [ts] are the dispatcher and, with a ping interval,
    the keepalive, both on the websocket and both running. *)
Definition handlers_running (ts : list nat) (w : world) : Prop :=
  match ping_interval (cfg (self w)) with
  | None => ∃ t0, ts = [t0] ∧ running_task w t0 (consumer_handler_task (ws w))
  | Some interval =>
      ∃ t0 t1, ts = [t0; t1] ∧ t0 ≠ t1
               ∧ running_task w t0 (consumer_handler_task (ws w))
               ∧ running_task w t1
                   (ping_handler_task (ws w) interval
                      (ping_timeout (cfg (self w))))
  end.

(** The client between the start of its handler tasks and the ready
    flag: both tables are empty and the connection is the websocket. *)
Definition subscribing (ts : list nat) (w : world) : Prop :=
  callbacks (self w) = ∅ ∧ futures (self w) = ∅
  ∧ connection (self w) = ws w
  ∧ handler_tasks w = ts ∧ handlers_running ts w.

(** The client when [connect_handler] settles down to wait for its handler
    tasks [ts]: success is signalled, the ready flag is up, a power state
    is there, and still no consumer is registered and no request
    pending. *)
Definition ready (res : nat) (ts : list nat) (w : world) : Prop :=
  fstate_of w res = FResult (PBool true)
  ∧ doStateUpdate (self w) = true
  ∧ truthy (_power_state (mirrored (self w))) = true
  ∧ subscribing ts w.

(** What [connect_handler] may suspend on: never on a batch of tasks that
    must all end, and on its handler tasks only when it is ready. *)
Definition connect_suspension (res : nat) (a : awaitable) (w : world) : Prop :=
  match a with
  | AwWait ts true => ready res ts w
  | AwWait _ false => False
  | _ => True
  end.

(** ** Calls in flight *)

(** The sound route that asks for a pause between two volume steps, with a
    pause of [ms] milliseconds configured. *)
Definition delayed (ms : Z) (w : world) : Prop :=
  _sound_output (mirrored (self w)) = PStr "external_arc"
  ∧ _volume_step_delay (cfg (self w)) = Some ms.

(** The rely of the volume steps: the other tasks keep the lock, the route
    and the configured pause. *)
Definition keeps_volume_steps (x y : world) : Prop :=
  _volume_step_lock (self y) = _volume_step_lock (self x)
  ∧ _sound_output (mirrored (self y)) = _sound_output (mirrored (self x))
  ∧ _volume_step_delay (cfg (self y)) = _volume_step_delay (cfg (self x)).

(** Where a volume step may suspend once it has the lock: on its request,
    and on the pause of [ms]; it holds the lock there. *)
Definition section_suspension (ms : Z) (a : awaitable) (w : world) : Prop :=
  _volume_step_lock (self w) = true ∧ delayed ms w
  ∧ match a with
    | AwSend _ _ | AwFuture _ => True
    | AwSleep d => d = ms
    | _ => False
    end.

(** How it leaves: the lock is free. *)
Definition section_left (ms : Z) (w : world) : Prop :=
  _volume_step_lock (self w) = false ∧ delayed ms w.

(** No loop of the coroutine runs on fuel. *)
Fixpoint fuel_free {A} (p : coro A) : Prop :=
  match p with
  | Ret _ | Raise _ => True
  | Get k => ∀ w, fuel_free (k w)
  | Put _ k => fuel_free k
  | Await _ k => ∀ x, fuel_free (k x)
  | OutOfFuel => False
  end.

(** A call of the client that the event loop runs as a task: created and
    not started yet, suspended since some time, returned, or out of
    fuel. *)
Inductive call : Type :=
| Fresh (p : coro pyval)
| Waiting (a : awaitable) (k : result pyval → coro pyval) (since : Z)
| Over (r : result pyval)
| Spent.

(** The event loop with its calls: the time in milliseconds, the world
    the calls share, and where and when each call has suspended so far,
    in the order it happened. *)
Record loop : Type := Loop {
  clock : Z;
  shared : world;
  calls : list call;
  history : list (nat * awaitable * Z)
}.

(** What the event loop does next: time passes, another task runs, a call
    is started, a suspended call is woken. *)
Inductive action : Type :=
| Advance (d : Z)
| Disturb (f : world → world)
| Start (i : nat)
| Resume (i : nat) (x : result pyval).

(** [asyncio.sleep(d)] is over when [d] has passed; a waiter of the lock is
    woken when the lock is free; neither is cancelled.  The transport and
    the appliance answer when and what they like. *)
Definition may_wake (a : awaitable) (since : Z) (x : result pyval) (now : Z)
    (w : world) : bool :=
  match a, x with
  | AwSleep d, Ok PNone => (since + d <=? now)%Z
  | AwSleep _, _ => false
  | AwLock, Ok PNone => negb (_volume_step_lock (self w))
  | AwLock, _ => false
  | _, _ => true
  end.

(** The call [i] has run up to its next suspension, or to its end. *)
Definition settle (i : nat) (σ : loop) (out : world * status pyval) : loop :=
  match out with
  | (w, Finished r) =>
      {| clock := clock σ; shared := w; calls := <[i := Over r]> (calls σ);
         history := history σ |}
  | (w, Blocked a k) =>
      {| clock := clock σ; shared := w;
         calls := <[i := Waiting a k (clock σ)]> (calls σ);
         history := history σ ++ [(i, a, clock σ)] |}
  | (w, Exhausted) =>
      {| clock := clock σ; shared := w; calls := <[i := Spent]> (calls σ);
         history := history σ |}
  end.

Definition loop_do (act : action) (σ : loop) : option loop :=
  match act with
  | Advance d =>
      if (0 <=? d)%Z
      then Some {| clock := clock σ + d; shared := shared σ; calls := calls σ;
                   history := history σ |}
      else None
  | Disturb f =>
      Some {| clock := clock σ; shared := f (shared σ); calls := calls σ;
              history := history σ |}
  | Start i =>
      match calls σ !! i with
      | Some (Fresh p) => Some (settle i σ (run p (shared σ)))
      | _ => None
      end
  | Resume i x =>
      match calls σ !! i with
      | Some (Waiting a k since) =>
          if may_wake a since x (clock σ) (shared σ)
          then Some (settle i σ (run (k x) (shared σ)))
          else None
      | _ => None
      end
  end.

Fixpoint loop_run (acts : list action) (σ : loop) : option loop :=
  match acts with
  | [] => Some σ
  | act :: acts' =>
      match loop_do act σ with
      | Some σ' => loop_run acts' σ'
      | None => None
      end
  end.

(** The other tasks respect the rely [R]. *)
Definition permitted (R : world → world → Prop) (act : action) : Prop :=
  match act with
  | Disturb f => ∀ w, R w (f w)
  | _ => True
  end.

(** [x] comes before [y] in [l]. *)
Definition precedes {A} (x y : A) (l : list A) : Prop :=
  ∃ l1 l2 l3, l = l1 ++ x :: l2 ++ y :: l3.

(** A call is in the section from where it has taken the lock to where it
    returns. *)
Definition holds_lock (c : call) : bool :=
  match c with
  | Waiting AwLock _ _ => false
  | Waiting _ _ _ => true
  | _ => false
  end.

(** What a volume step in flight is: the call itself when it has not
    started; when it waits for the lock, a call that goes through the
    section once the lock is free; in the section, a call that goes
    through the rest of it, [ms] being the pause it sleeps for. *)
Definition call_ok (ms : Z) (w : world) (c : call) : Prop :=
  match c with
  | Fresh p => ∃ e, p = _volume_step e
  | Waiting AwLock k _ =>
      (∀ x, fuel_free (k x))
      ∧ ∀ w', delayed ms w' → _volume_step_lock (self w') = false →
              wp keeps_volume_steps (section_suspension ms)
                (λ _ w'', section_left ms w'') (k (Ok PNone)) w'
  | Waiting a k _ =>
      (∀ d, a = AwSleep d → d = ms)
      ∧ (∀ x, fuel_free (k x))
      ∧ ∀ w' x, keeps_volume_steps w w' →
                wp keeps_volume_steps (section_suspension ms)
                  (λ _ w'', section_left ms w'') (k x) w'
  | Over _ => True
  | Spent => False
  end.

(** The event loop while the route asks for a pause of [ms]: every call is
    a volume step in flight; at most one is in the section, and it holds
    the lock; a call that has begun its pause at [t1] is still in it, or
    [ms] have passed since; and no other call has sent a request in
    between. *)
Record paced (ms : Z) (σ : loop) : Prop := Paced {
  paced_route : delayed ms (shared σ);
  paced_calls : ∀ i c, calls σ !! i = Some c → call_ok ms (shared σ) c;
  paced_lock : ∀ i c, calls σ !! i = Some c → holds_lock c = true →
                      _volume_step_lock (self (shared σ)) = true;
  paced_holder : ∀ i j ci cj, calls σ !! i = Some ci → calls σ !! j = Some cj →
                              holds_lock ci = true → holds_lock cj = true → i = j;
  paced_sleeps : ∀ i d t1, (i, AwSleep d, t1) ∈ history σ →
                 d = ms ∧ ((∃ k, calls σ !! i = Some (Waiting (AwSleep d) k t1))
                           ∨ (t1 + ms ≤ clock σ)%Z);
  paced_sends : ∀ i j d conn data t1 t2, i ≠ j →
                precedes (i, AwSleep d, t1) (j, AwSend conn data, t2) (history σ) →
                (t1 + ms ≤ t2)%Z
}.

(** A sound route that asks for no pause, or no pause configured. *)
Definition undelayed (w : world) : Prop :=
  match hashable (_sound_output (mirrored (self w))) with
  | Some k => k ∉ SOUND_OUTPUTS_TO_DELAY_CONSECUTIVE_VOLUME_STEPS
              ∨ _volume_step_delay (cfg (self w)) = None
  | None => False
  end.

(** Neither the lock nor a pause. *)
Definition plain (a : awaitable) : Prop :=
  match a with
  | AwLock | AwSleep _ => False
  | _ => True
  end.

(** The rely of [subscribe]: the other tasks leave the table of consumers
    as it is. *)
Definition keeps_callbacks (x y : world) : Prop :=
  callbacks (self y) = callbacks (self x).

(** ** A client to try things on *)

(** The client as [__init__] leaves it. *)
Definition init (cfg : settings) (client_key : pyval) : client :=
  {| cfg := cfg; client_key := client_key; command_count := 0;
     connect_result := None; connection := PNone; input_connection := PNone;
     callbacks := ∅; futures := ∅; mirrored := mirror_unknown;
     state_update_callbacks := []; doStateUpdate := false;
     _volume_step_lock := false |}.

Definition empty_world (c : client) : world :=
  {| self := c; future_state := ∅; task_state := ∅; queue_state := ∅;
     next_handle := 0; handler_tasks := []; ws := PNone; log := [] |}.

Definition default_settings : settings :=
  {| ip := "192.168.1.18"; port := 3000; timeout_connect := 2;
     ping_interval := Some 1%Z; ping_timeout := Some 20%Z;
     _volume_step_delay := None |}.

(** A paired client with an open connection, the websocket being object 1. *)
Definition connected_client : client :=
  set_connection (PObj 1) (init default_settings (PStr "abc123")).

(** The same client once [connect] has succeeded: the connect result is
    future 0 and holds [True]; and with the input connection open as well,
    as object 2. *)
Definition ready_world : world :=
  {| self := {| cfg := default_settings; client_key := PStr "abc123";
                command_count := 0; connect_result := Some 0;
                connection := PObj 1; input_connection := PNone;
                callbacks := ∅; futures := ∅; mirrored := mirror_unknown;
                state_update_callbacks := []; doStateUpdate := true;
                _volume_step_lock := false |};
     future_state := {[ 0 := FResult (PBool true) ]};
     task_state := ∅; queue_state := ∅; next_handle := 1;
     handler_tasks := []; ws := PObj 1; log := [] |}.

Definition pointing_world : world :=
  with_self (set_input_connection (PObj 2)) ready_world.

(** A client that is about to connect: paired, and its connect result,
    future 0, pending. *)
Definition connecting_world : world :=
  {| self := {| cfg := default_settings; client_key := PStr "abc123";
                command_count := 0; connect_result := Some 0;
                connection := PNone; input_connection := PNone;
                callbacks := ∅; futures := ∅; mirrored := mirror_unknown;
                state_update_callbacks := []; doStateUpdate := false;
                _volume_step_lock := false |};
     future_state := {[ 0 := FPending ]};
     task_state := ∅; queue_state := ∅; next_handle := 1;
     handler_tasks := []; ws := PNone; log := [] |}.

(** A registration message, and the reply of an appliance that knows the
    key. *)
Definition sample_registration : pyval :=
  PDict [("type", PStr "register"); ("payload", PDict [("client-key", PNone)])].

Definition sample_registered : pyval :=
  PDict [("type", PStr "registered");
         ("payload", PDict [("client-key", PStr "abc123")])].

(** While the connection is open a worker delivers a volume; then the
    task that waits is woken. *)
Definition volume_delivered (v : Z) : reaction :=
  {| interfere := λ w, if is_None (connection (self w)) then w
                       else fst (run (set_volume_state (PInt v)) w);
     wake := Ok PNone |}.

(** Every task ends; then the task that waits is woken. *)
Definition tasks_finished : reaction :=
  {| interfere := with_task_state
                    (fmap (λ t, {| body := body t; outcome := Some (Ok PNone);
                                   cancel_requested := cancel_requested t |}));
     wake := Ok PNone |}.

(** A session: the transport opens, the registration goes out, the
    appliance answers, a volume arrives, the dispatcher ends, the cleanup
    tasks end. *)
Definition sample_session : list reaction :=
  [quiet (Ok (PObj 1)); quiet (Ok PNone); quiet (Ok sample_registered);
   volume_delivered 12; tasks_finished].

(** A catalogue; the service paths are samples. *)
Definition sample_endpoints : endpoints :=
  {| GET_POWER_STATE := "com.webos.service.tvpower/power/getPowerState";
     GET_CURRENT_APP_INFO := "com.webos.applicationManager/getForegroundAppInfo";
     GET_AUDIO_STATUS := "audio/getStatus";
     GET_VOLUME := "audio/getVolume";
     GET_APPS := "com.webos.applicationManager/listLaunchPoints";
     GET_INPUTS := "tv/getExternalInputList";
     GET_SOUND_OUTPUT := "com.webos.service.apiadapter/audio/getSoundOutput";
     GET_SYSTEM_SETTINGS := "settings/getSystemSettings";
     INPUT_SOCKET := "com.webos.service.networkinput/getPointerInputSocket";
     SET_VOLUME := "audio/setVolume";
     VOLUME_UP := "audio/volumeUp";
     VOLUME_DOWN := "audio/volumeDown" |}.

(** ** Two volume steps to try things on *)

(** A connected client on the route that asks for a pause, with half a
    second configured. *)
Definition arc_world : world :=
  {| self := {| cfg := {| ip := "192.168.1.18"; port := 3000;
                          timeout_connect := 2; ping_interval := Some 1%Z;
                          ping_timeout := Some 20%Z;
                          _volume_step_delay := Some 500%Z |};
                client_key := PStr "abc123";
                command_count := 0; connect_result := Some 0;
                connection := PObj 1; input_connection := PNone;
                callbacks := ∅; futures := ∅;
                mirrored := {| _power_state := PDict [("state", PStr "Active")];
                               _current_appId := PNone; _muted := PNone;
                               _volume := PInt 10; _current_channel := PNone;
                               _channel_info := PNone; _channels := PNone;
                               _apps := ∅; _extinputs := ∅;
                               _system_info := PNone; _software_info := PNone;
                               _sound_output := PStr "external_arc";
                               _picture_settings := PNone |};
                state_update_callbacks := []; doStateUpdate := true;
                _volume_step_lock := false |};
     future_state := {[ 0 := FResult (PBool true) ]};
     task_state := ∅; queue_state := ∅; next_handle := 1;
     handler_tasks := []; ws := PObj 1; log := [] |}.

(** The reply of the appliance to the request [id]. *)
Definition volume_reply (id : Z) : pyval :=
  PDict [("type", PStr "response"); ("id", PInt id);
         ("payload", PDict [("returnValue", PBool true)])].

(** Two steps are started one after the other; the first request goes out
    and is answered after 30 ms by the dispatcher, which resolves future
    1; half a second later the first call returns and the second one is
    given the lock. *)
Definition two_steps : list action :=
  [Start 0; Start 1; Resume 0 (Ok PNone); Advance 30;
   Disturb (with_future_state (<[1 := FResult (volume_reply 0)]>));
   Resume 0 (Ok PNone); Advance 500; Resume 0 (Ok PNone);
   Resume 1 (Ok PNone)].

(** * Properties *)

(** ** Running, binding and catching *)

Lemma run_bind {A B} (p : coro A) (f : A → coro B) (w : world) :
  run (bind p f) w =
  match run p w with
  | (w', Finished (Ok a)) => run (f a) w'
  | (w', Finished (Err e)) => (w', Finished (Err e))
  | (w', Blocked a k) => (w', Blocked a (λ x, bind (k x) f))
  | (w', Exhausted) => (w', Exhausted)
  end.
Proof. revert w. induction p; intros; simpl; auto. Qed.

Lemma run_attempt {A} (p : coro A) (w : world) :
  run (attempt p) w =
  match run p w with
  | (w', Finished r) => (w', Finished (Ok r))
  | (w', Blocked a k) => (w', Blocked a (λ x, attempt (k x)))
  | (w', Exhausted) => (w', Exhausted)
  end.
Proof. revert w. induction p; intros; simpl; auto. Qed.

Lemma exec_finished {A} (s : list reaction) (p : coro A) (w w' : world)
    (r : result A) :
  run p w = (w', Finished r) → exec s p w = (w', Finished r, s).
Proof. intros H. destruct s; simpl; rewrite H; reflexivity. Qed.

Lemma exec_run_eq {A} (s : list reaction) (p p' : coro A) (w w' : world) :
  run p w = run p' w' → exec s p w = exec s p' w'.
Proof. intros H. destruct s; simpl; rewrite H; reflexivity. Qed.

Lemma exec_bind {A B} (s : list reaction) (p : coro A) (f : A → coro B)
    (w : world) :
  exec s (bind p f) w =
  match exec s p w with
  | (w', Finished (Ok a), s') => exec s' (f a) w'
  | (w', Finished (Err e), s') => (w', Finished (Err e), s')
  | (w', Blocked a k, s') => (w', Blocked a (λ x, bind (k x) f), s')
  | (w', Exhausted, s') => (w', Exhausted, s')
  end.
Proof.
  revert p w. induction s as [|r s IH]; intros p w; simpl; rewrite run_bind.
  - destruct (run p w) as [w1 [[a|e]|a k|]]; simpl; try reflexivity.
  - destruct (run p w) as [w1 [[a|e]|a k|]] eqn:E; simpl; try reflexivity.
    apply IH.
Qed.

Lemma exec_attempt {A} (s : list reaction) (p : coro A) (w : world) :
  exec s (attempt p) w =
  match exec s p w with
  | (w', Finished r, s') => (w', Finished (Ok r), s')
  | (w', Blocked a k, s') => (w', Blocked a (λ x, attempt (k x)), s')
  | (w', Exhausted, s') => (w', Exhausted, s')
  end.
Proof.
  revert p w. induction s as [|r s IH]; intros p w; simpl; rewrite run_attempt.
  - destruct (run p w) as [w1 [r|a k|]]; reflexivity.
  - destruct (run p w) as [w1 [r0|a k|]]; try reflexivity. apply IH.
Qed.

(** What is left of a script is its end. *)
Lemma exec_suffix {A} (s : list reaction) (p : coro A) (w w' : world)
    (st : status A) (rest : list reaction) :
  exec s p w = (w', st, rest) → ∃ used, s = used ++ rest.
Proof.
  revert p w. induction s as [|r s IH]; intros p w; simpl.
  - intros [= _ <-]. by exists [].
  - destruct (run p w) as [w1 [r0|a k|]].
    + intros [= _ _ <-]. by exists [].
    + intros H. destruct (IH _ _ H) as [used ->]. by exists (r :: used).
    + intros [= _ _ <-]. by exists [].
Qed.

Lemma respects_app (R : world → world → Prop) (s1 s2 : list reaction) :
  respects R (s1 ++ s2) → respects R s2.
Proof. unfold respects. rewrite Forall_app. tauto. Qed.

(** ** The rules of [wp] *)

Section Rules.
Context (R : world → world → Prop) (B : awaitable → world → Prop).

Lemma wp_mono {A} (Q Q' : result A → world → Prop) (p : coro A) (w : world) :
  (∀ r w', Q r w' → Q' r w') → wp R B Q p w → wp R B Q' p w.
Proof.
  intros HQ. revert w.
  induction p as [a|e|k IH|w1 k IH|a k IH|]; simpl; intros w0 Hwp; eauto.
  destruct Hwp as [Hb Hk]. eauto.
Qed.

Lemma wp_bind {A C} (Q : result C → world → Prop) (p : coro A)
    (f : A → coro C) (w : world) :
  wp R B (λ r w', match r with
                  | Ok a => wp R B Q (f a) w'
                  | Err e => Q (Err e) w'
                  end) p w →
  wp R B Q (bind p f) w.
Proof.
  revert w.
  induction p as [a|e|k IH|w1 k IH|a k IH|]; simpl; intros w0 Hwp; eauto.
  destruct Hwp as [Hb Hk]. eauto.
Qed.

Lemma wp_attempt {A} (Q : result (result A) → world → Prop) (p : coro A)
    (w : world) :
  wp R B (λ r w', Q (Ok r) w') p w → wp R B Q (attempt p) w.
Proof.
  revert w.
  induction p as [a|e|k IH|w1 k IH|a k IH|]; simpl; intros w0 Hwp; eauto.
  destruct Hwp as [Hb Hk]. eauto.
Qed.

(** Whatever the [try] block ends with, the [finally] block decides. *)
Lemma wp_try_finally {A} (Q : result A → world → Prop) (p : coro A)
    (fin : coro unit) (w : world) :
  wp R B (λ _ _, True) p w →
  (∀ r w', wp R B Q (fin;; lift r) w') →
  wp R B Q (try_finally p fin) w.
Proof.
  intros Hp Hfin. unfold try_finally. apply wp_bind, wp_attempt.
  eapply wp_mono; [|exact Hp]. intros r w' _. apply Hfin.
Qed.

(** A coroutine that runs to its end without suspending. *)
Lemma wp_of_run {A} (Q : result A → world → Prop) (p : coro A) (w w' : world)
    (r : result A) :
  run p w = (w', Finished r) → Q r w' → wp R B Q p w.
Proof.
  revert w.
  induction p as [a|e|k IH|w1 k IH|a k IH|]; simpl; intros w0 Hrun HQ; eauto;
    try discriminate; by injection Hrun as <- <-.
Qed.

Lemma wp_run {A} (Q : result A → world → Prop) (p : coro A) (w : world) :
  wp R B Q p w →
  match run p w with
  | (w1, Finished r) => Q r w1
  | (w1, Blocked a k) => B a w1 ∧ ∀ w' x, R w1 w' → wp R B Q (k x) w'
  | (w1, Exhausted) => True
  end.
Proof.
  revert w.
  induction p as [a|e|k IH|w1 k IH|a k IH|]; simpl; intros w0 Hwp; auto.
  - apply IH, Hwp.
  - apply IH, Hwp.
Qed.

(** [wp] is sound for the runs against a script: for where they end, *)
Lemma wp_sound {A} (Q : result A → world → Prop) (s : list reaction) (p : coro A)
    (w w' : world) (r : result A) (rest : list reaction) :
  wp R B Q p w → respects R s →
  exec s p w = (w', Finished r, rest) → Q r w'.
Proof.
  revert p w. induction s as [|x s IH]; intros p w Hwp Hs; simpl.
  - intros [= E _]. apply wp_run in Hwp. rewrite E in Hwp. exact Hwp.
  - apply wp_run in Hwp. destruct (run p w) as [w1 [r0|a k|]].
    + intros [= -> -> _]. exact Hwp.
    + inversion Hs as [|? ? Hx Hs']; subst.
      apply IH; [apply Hwp, Hx | exact Hs'].
    + discriminate.
Qed.

(** and for where they are left suspended. *)
Lemma wp_sound_blocked {A} (Q : result A → world → Prop) (s : list reaction)
    (p : coro A) (w w' : world) (a : awaitable) (k : result pyval → coro A)
    (rest : list reaction) :
  wp R B Q p w → respects R s →
  exec s p w = (w', Blocked a k, rest) → B a w'.
Proof.
  revert p w. induction s as [|x s IH]; intros p w Hwp Hs; simpl.
  - intros [= E _]. apply wp_run in Hwp. rewrite E in Hwp. apply Hwp.
  - apply wp_run in Hwp. destruct (run p w) as [w1 [r0|a0 k0|]].
    + discriminate.
    + inversion Hs as [|? ? Hx Hs']; subst.
      apply IH; [apply Hwp, Hx | exact Hs'].
    + discriminate.
Qed.

End Rules.

Lemma wp_any {A} (R : world → world → Prop) (p : coro A) (w : world) :
  wp R anywhere (λ _ _, True) p w.
Proof.
  revert w. induction p as [a|e|k IH|w1 k IH|a k IH|]; simpl; auto.
  intros w. split; [exact I|]. auto.
Qed.

Lemma respects_anything (s : list reaction) : respects anything s.
Proof. unfold respects. apply Forall_forall. intros r _ x. exact I. Qed.

(** ** Values *)

Lemma eq_str_true (v : pyval) (s : string) : eq_str v s = true ↔ v = PStr s.
Proof.
  destruct v; simpl; try (split; [discriminate | intros [=]]).
  rewrite String.eqb_eq. split; [intros -> | intros [= ->]]; reflexivity.
Qed.

Lemma eq_str_false (v : pyval) (s : string) : eq_str v s = false ↔ v ≠ PStr s.
Proof.
  rewrite <- eq_str_true. destruct (eq_str v s); split; congruence.
Qed.

Lemma is_None_true (v : pyval) : is_None v = true ↔ v = PNone.
Proof. destruct v; simpl; split; congruence. Qed.

(** ** The derived accessor [is_on] *)

(** C4.  With a mirrored power state that is a mapping, [is_on] is
    [False] when its "state" is unset, "Power Off", "Suspend" or "Active
    Standby"; when it is "Unknown", [is_on] is [True] exactly when the
    current app id is neither [None] nor the empty string; for every other
    value of "state" it is [True]. *)
Theorem is_on_by_power_state (c : client) (d : list (string * pyval)) :
  _power_state (mirrored c) = PDict d →
  let state := default PNone (assoc "state" d) in
  let appId := _current_appId (mirrored c) in
  (state = PNone ∨ state = PStr "Power Off" ∨ state = PStr "Suspend"
     ∨ state = PStr "Active Standby" → is_on c = Ok false)
  ∧ (state = PStr "Unknown" →
       (appId = PNone ∨ appId = PStr "" → is_on c = Ok false)
       ∧ (appId ≠ PNone → appId ≠ PStr "" → is_on c = Ok true))
  ∧ (state ≠ PNone → state ≠ PStr "Power Off" → state ≠ PStr "Suspend" →
     state ≠ PStr "Active Standby" → state ≠ PStr "Unknown" →
     is_on c = Ok true).
Proof.
  intros Hd state appId. unfold is_on. rewrite Hd. simpl.
  fold state. fold appId. split; [|split].
  - intros [-> | [-> | [-> | ->]]]; reflexivity.
  - intros ->. simpl. split.
    + intros [-> | ->]; reflexivity.
    + intros H1 H2.
      destruct (is_None appId) eqn:E1; [apply is_None_true in E1; contradiction|].
      apply eq_str_false in H2. rewrite H2. reflexivity.
  - intros H0 H1 H2 H3 H4.
    apply eq_str_false in H1, H2, H3, H4. rewrite H1, H2, H3, H4.
    destruct (is_None state) eqn:E; [apply is_None_true in E; contradiction|].
    reflexivity.
Qed.

Lemma is_on_by_power_state_witness :
  let c := set_mirrored (set_power_state_field (PDict [("state", PStr "Active")])
                           mirror_unknown) connected_client in
  _power_state (mirrored c) = PDict [("state", PStr "Active")]
  ∧ is_on c = Ok true.
Proof.
  intros c. split; [reflexivity|].
  apply (is_on_by_power_state c [("state", PStr "Active")] eq_refl); discriminate.
Defined.

(** ** Volume *)

(** C10.  On an open connection [set_volume v] sends the set-volume
    request with the volume [0] for a negative [v] and [v] itself
    otherwise. *)
Theorem set_volume_clamps (ep : endpoints) (volume : Z) (w : world) :
  is_None (connection (self w)) = false →
  suspensions [] (set_volume ep volume) w =
    [AwSend (connection (self w))
       (message (PInt (command_count (self w))) "request" (SET_VOLUME ep)
          (PDict [("volume", PInt (if (volume <? 0)%Z then 0 else volume))]))].
Proof.
  intros Hc. unfold set_volume, request, suspensions. simpl.
  rewrite Hc. simpl.
  replace (0 `max` volume)%Z with (if (volume <? 0)%Z then 0%Z else volume);
    [reflexivity|].
  destruct (Z.ltb_spec volume 0); lia.
Qed.

Lemma set_volume_clamps_witness :
  is_None (connection (self (empty_world connected_client))) = false
  ∧ suspensions [] (set_volume sample_endpoints (-5))
      (empty_world connected_client) =
    [AwSend (PObj 1)
       (PDict [("id", PInt 0); ("type", PStr "request");
               ("uri", PStr "ssap://audio/setVolume");
               ("payload", PDict [("volume", PInt 0)])])].
Proof.
  split; [reflexivity|].
  exact (set_volume_clamps _ (-5) (empty_world connected_client) eq_refl).
Defined.

(** ** The apps consumer *)

Lemma run_notify_observers_world (w : world) :
  fst (run notify_observers w) = w.
Proof.
  unfold notify_observers, do_state_update_callbacks. simpl.
  destruct (state_update_callbacks (self w)); [reflexivity|].
  destruct (doStateUpdate (self w)); simpl; [|reflexivity].
  destruct (state_update_callbacks (self w)); reflexivity.
Qed.

Lemma run_then_notify (p : coro unit) (w w' : world) :
  run p w = (w', Finished (Ok tt)) →
  fst (run (p;; notify_observers) w) = w'.
Proof.
  intros H. rewrite run_bind, H. apply run_notify_observers_world.
Qed.

Lemma run_then_notify_err (p : coro unit) (w w' : world) (e : exn) :
  run p w = (w', Finished (Err e)) →
  run (p;; notify_observers) w = (w', Finished (Err e)).
Proof. intros H. rewrite run_bind, H. reflexivity. Qed.

(** The catalogue loop, on apps that all have a hashable id. *)
Lemma run_catalogue (apps : list pyval) (w : world) :
  Forall (λ app, is_Some (app_key app)) apps →
  ∃ w', run (for_each apps
               (λ app, id ← lift (py_getitem app "id"); apps_setitem id app)) w
        = (w', Finished (Ok tt))
        ∧ _apps (mirrored (self w')) = apps_of apps (_apps (mirrored (self w))).
Proof.
  revert w. induction apps as [|app apps IH]; intros w Happs.
  - exists w. split; reflexivity.
  - inversion Happs as [|? ? [k Hk] Happs']; subst.
    unfold app_key in Hk.
    destruct (py_getitem app "id") as [id|] eqn:Eid; [|discriminate].
    cbn [for_each]. rewrite run_bind. rewrite run_bind. rewrite Eid.
    cbn [lift run]. unfold apps_setitem. rewrite Hk. cbn [modify run].
    destruct (IH (with_self (λ c,
        set_mirrored (set_apps_field (<[k:=app]> (_apps (mirrored c))) (mirrored c)) c) w)
        Happs') as (w' & Hrun & Happs_w').
    exists w'. split; [exact Hrun|]. rewrite Happs_w'. simpl.
    unfold app_key. rewrite Eid, Hk. reflexivity.
Qed.

Lemma apps_of_lookup (apps : list pyval) (m : gmap pykey pyval) (k : pykey)
    (v : pyval) :
  apps_of apps m !! k = Some v →
  (v ∈ apps ∧ app_key v = Some k) ∨ m !! k = Some v.
Proof.
  revert m. induction apps as [|app apps IH]; intros m; simpl; [auto|].
  intros H. apply IH in H as [[Hin Hk]|H].
  - left. split; [by right | exact Hk].
  - destruct (app_key app) as [k'|] eqn:E; [|by right].
    destruct (decide (k' = k)) as [->|Hne].
    + rewrite lookup_insert_eq in H. injection H as ->.
      left. split; [by left | exact E].
    + rewrite lookup_insert_ne in H by exact Hne. by right.
Qed.

Lemma apps_of_keeps (apps : list pyval) (m : gmap pykey pyval) (k : pykey) :
  is_Some (m !! k) → is_Some (apps_of apps m !! k).
Proof.
  revert m. induction apps as [|app apps IH]; intros m; simpl; [auto|].
  intros H. apply IH. destruct (app_key app) as [k'|]; [|exact H].
  destruct (decide (k' = k)) as [->|Hne].
  - rewrite lookup_insert_eq. eauto.
  - rewrite lookup_insert_ne by exact Hne. exact H.
Qed.

Lemma apps_of_listed (apps : list pyval) (m : gmap pykey pyval) (app : pyval)
    (k : pykey) :
  app ∈ apps → app_key app = Some k → is_Some (apps_of apps m !! k).
Proof.
  revert m. induction apps as [|app' apps IH]; intros m Hin Hk.
  - by apply not_elem_of_nil in Hin.
  - apply elem_of_cons in Hin as [<-|Hin]; simpl.
    + rewrite Hk. apply apps_of_keeps. rewrite lookup_insert_eq. eauto.
    + by apply IH.
Qed.

Lemma set_apps_state_unfold (payload apps : pyval) (w : world) :
  py_get payload "launchPoints" = Ok apps →
  run (set_apps_state payload) w =
  run ((if negb (is_None apps) then set_apps_catalogue apps
        else set_apps_change payload);; notify_observers) w.
Proof. intros H. unfold set_apps_state. rewrite H. reflexivity. Qed.

Lemma apps_after_catalogue (d : list (string * pyval)) (apps : list pyval)
    (w : world) :
  assoc "launchPoints" d = Some (PList apps) →
  Forall (λ app, is_Some (app_key app)) apps →
  apps_after (PDict d) w = apps_of apps ∅.
Proof.
  intros Hd Happs. unfold apps_after.
  destruct (run_catalogue apps
    (with_self (λ c, set_mirrored (set_apps_field ∅ (mirrored c)) c) w) Happs)
    as (w' & Hrun & Hw').
  rewrite (set_apps_state_unfold _ (PList apps)) by (simpl; by rewrite Hd).
  cbn [is_None negb].
  rewrite (run_then_notify _ w w'); [exact Hw'|exact Hrun].
Qed.

Lemma apps_after_removed (payload id : pyval) (k : pykey) (w : world) :
  py_get payload "launchPoints" = Ok PNone →
  py_getitem payload "change" = Ok (PStr "removed") →
  py_getitem payload "id" = Ok id → hashable id = Some k →
  apps_after payload w = delete k (_apps (mirrored (self w))).
Proof.
  intros Hl Hc Hi Hk. unfold apps_after.
  rewrite (set_apps_state_unfold _ PNone) by exact Hl. cbn [is_None negb].
  assert (Hrun : run (set_apps_change payload) w = run (apps_delitem id) w).
  { unfold set_apps_change. rewrite Hc, Hi. reflexivity. }
  unfold apps_delitem in Hrun. rewrite Hk in Hrun. simpl in Hrun.
  destruct (_apps (mirrored (self w)) !! k) as [v|] eqn:E.
  - rewrite (run_then_notify _ w _ Hrun). reflexivity.
  - rewrite (run_then_notify_err _ w _ _ Hrun). simpl. symmetry. by apply delete_id.
Qed.

Lemma apps_after_upsert (payload change id : pyval) (k : pykey) (w : world) :
  py_get payload "launchPoints" = Ok PNone →
  py_getitem payload "change" = Ok change → change ≠ PStr "removed" →
  py_getitem payload "id" = Ok id → hashable id = Some k →
  apps_after payload w = <[k := payload]> (_apps (mirrored (self w))).
Proof.
  intros Hl Hc Hne Hi Hk. unfold apps_after.
  apply eq_str_false in Hne.
  rewrite (set_apps_state_unfold _ PNone) by exact Hl. cbn [is_None negb].
  assert (Hrun : run (set_apps_change payload) w = run (apps_setitem id payload) w).
  { unfold set_apps_change. rewrite Hc, Hi. simpl. rewrite Hne. reflexivity. }
  unfold apps_setitem in Hrun. rewrite Hk in Hrun. simpl in Hrun.
  rewrite (run_then_notify _ w _ Hrun). reflexivity.
Qed.

(** C9.  A delivery with "launchPoints" replaces the apps mapping with one
    entry per listed app, filed under its "id"; without "launchPoints", a
    "change" equal to "removed" deletes the entry of the payload's "id" and
    any other "change" files the payload under that id.  The catalogue of
    "a" and "b" followed by the removal of "a" leaves "b" alone. *)
Theorem set_apps_state_mapping (w : world) :
  (∀ d apps,
     assoc "launchPoints" d = Some (PList apps) →
     Forall (λ app, is_Some (app_key app)) apps →
     let m := apps_after (PDict d) w in
     m = apps_of apps ∅
     ∧ (∀ k v, m !! k = Some v → v ∈ apps ∧ app_key v = Some k)
     ∧ (∀ app k, app ∈ apps → app_key app = Some k → is_Some (m !! k)))
  ∧ (∀ payload change id k,
       py_get payload "launchPoints" = Ok PNone →
       py_getitem payload "change" = Ok change →
       py_getitem payload "id" = Ok id → hashable id = Some k →
       (change = PStr "removed" →
        apps_after payload w = delete k (_apps (mirrored (self w))))
       ∧ (change ≠ PStr "removed" →
          apps_after payload w = <[k := payload]> (_apps (mirrored (self w)))))
  ∧ (let a := PDict [("id", PStr "a")] in
     let b := PDict [("id", PStr "b")] in
     let w1 := fst (run (set_apps_state (PDict [("launchPoints", PList [a; b])])) w) in
     apps_after (PDict [("change", PStr "removed"); ("id", PStr "a")]) w1
     = {[ KStr "b" := b ]}).
Proof.
  split; [|split].
  - intros d apps Hd Happs m. subst m.
    rewrite (apps_after_catalogue d apps w Hd Happs). split; [reflexivity|]. split.
    + intros k v H. apply apps_of_lookup in H as [H|H]; [exact H|].
      by rewrite lookup_empty in H.
    + intros app k. apply apps_of_listed.
  - intros payload change id k Hl Hc Hi Hk. split.
    + intros ->. by eapply apps_after_removed.
    + intros Hne. by eapply apps_after_upsert.
  - intros a b w1.
    rewrite (apps_after_removed _ (PStr "a") (KStr "a")) by reflexivity.
    subst w1.
    change (_apps _) with
      (apps_after (PDict [("launchPoints", PList [a; b])]) w).
    rewrite (apps_after_catalogue _ [a; b]); [| reflexivity |].
    + simpl. rewrite delete_insert_ne by discriminate.
      rewrite delete_insert_eq. rewrite delete_empty. reflexivity.
    + repeat constructor; eexists; reflexivity.
Qed.

Lemma set_apps_state_mapping_witness :
  let a := PDict [("id", PStr "a")] in
  let b := PDict [("id", PStr "b")] in
  let w := empty_world connected_client in
  let removal := PDict [("change", PStr "removed"); ("id", PStr "a")] in
  (assoc "launchPoints" [("launchPoints", PList [a; b])] = Some (PList [a; b])
   ∧ Forall (λ app, is_Some (app_key app)) [a; b]
   ∧ apps_after (PDict [("launchPoints", PList [a; b])]) w = apps_of [a; b] ∅)
  ∧ (py_get removal "launchPoints" = Ok PNone
     ∧ py_getitem removal "change" = Ok (PStr "removed")
     ∧ py_getitem removal "id" = Ok (PStr "a")
     ∧ hashable (PStr "a") = Some (KStr "a")
     ∧ apps_after removal w = delete (KStr "a") (_apps (mirrored (self w)))).
Proof.
  intros a b w removal.
  destruct (set_apps_state_mapping w) as (Hfull & Hinc & _).
  assert (Hab : Forall (λ app, is_Some (app_key app)) [a; b])
    by (repeat constructor; eexists; reflexivity).
  split.
  - split; [reflexivity|]. split; [exact Hab|].
    exact (proj1 (Hfull [("launchPoints", PList [a; b])] [a; b] eq_refl Hab)).
  - repeat (split; [reflexivity|]).
    exact (proj1 (Hinc removal (PStr "removed") (PStr "a") (KStr "a")
                    eq_refl eq_refl eq_refl eq_refl) eq_refl).
Defined.

(** ** Requests and their replies *)

(** A frame whose id has a pending future and no consumer resolves that
    future, and does nothing else. *)
Lemma deliver_resolves (d : dispatcher) (msg uid : pyval) (key : pykey)
    (f : nat) (w : world) :
  py_get msg "id" = Ok uid → hashable uid = Some key →
  callbacks (self w) !! key = None → futures (self w) !! key = Some f →
  fstate_of w f = FPending →
  deliver d msg w
  = with_log (EvSetResult f msg) (with_future_state (insert f (FResult msg)) w).
Proof.
  intros Hid Hkey Hcb Hfut Hpend. unfold deliver, consumer_frame. simpl.
  assert (Hne : bool_decide (futures (self w) = ∅) = false).
  { apply bool_decide_eq_false. intros E. rewrite E, lookup_empty in Hfut.
    discriminate. }
  rewrite Hne, andb_false_r, Hid. simpl. rewrite Hkey. simpl.
  rewrite Hcb, Hfut. simpl. rewrite Hpend. simpl. rewrite Hpend. reflexivity.
Qed.




(** ** Subscriptions *)

(** [request_result] neither suspends nor touches the world. *)
Lemma request_result_cases (response : pyval) :
  (∃ a, request_result response = Ret a) ∨ (∃ e, request_result response = Raise e).
Proof.
  unfold request_result.
  repeat match goal with
         | |- context [lift ?r] => destruct r; simpl
         | |- context [if ?b then _ else _] => destruct b; simpl
         end; eauto.
Qed.

(** Case analysis on whatever keeps a [wp] goal from reducing. *)
Ltac wp_case :=
  match goal with
  | |- wp _ _ _ ?p _ =>
      match p with
      | context [request_result ?v] =>
          destruct (request_result_cases v) as [[? ->]|[? ->]]
      | context [lift ?x] => is_var x; destruct x
      | context [lift ?x] => destruct x eqn:?
      | context [if ?b then _ else _] => destruct b eqn:?
      | context [match ?x with _ => _ end] => destruct x eqn:?
      end
  end.

Ltac wp_auto :=
  repeat (simpl; intros; try wp_case;
          try match goal with |- anywhere _ _ ∧ _ => split; [exact I|] end).

Lemma request_keeps_callbacks (uri : string) (payload : pyval)
    (cmd_type : string) (uid : pyval) (w : world) :
  wp keeps_callbacks anywhere (λ _ w', callbacks (self w') = callbacks (self w))
    (request uri payload cmd_type uid) w.
Proof.
  unfold request, command, futures_setitem, futures_delitem, futures_contains,
    await_future, future_result, try_except.
  wp_auto.
  all: unfold keeps_callbacks in *; simpl in *; congruence.
Qed.


(** ** Pending requests *)

Lemma resolutions_app (f : nat) (l1 l2 : list event) :
  resolutions f (l1 ++ l2) = resolutions f l1 + resolutions f l2.
Proof. induction l1 as [|ev l1 IH]; simpl; [reflexivity|]. rewrite IH. lia. Qed.

(** A resolver either leaves futures and log alone or gives its result to
    one future that was pending. *)
Lemma resolve_cases (w : world) (r : resolver) :
  (log (resolve w r) = log w ∧ future_state (resolve w r) = future_state w)
  ∨ (∃ f v, fstate_of w f = FPending
            ∧ log (resolve w r) = log w ++ [EvSetResult f v]
            ∧ future_state (resolve w r) = <[f := FResult v]> (future_state w)).
Proof.
  destruct r as [d msg|[f|] msg]; simpl.
  - unfold deliver, consumer_frame. simpl.
    repeat match goal with
           | |- context [lift ?r] => destruct r eqn:?; simpl
           | |- context [if ?b then _ else _] => destruct b eqn:?; simpl
           | |- context [match ?x with _ => _ end] => destruct x eqn:?; simpl
           end; auto.
    all: right; eexists _, _; split; [|split; reflexivity];
      destruct (fstate_of w _); simpl in *; congruence.
  - destruct (fstate_of w f) eqn:E; simpl; rewrite ?E; simpl; auto.
    right. eexists _, _. split; [exact E|]. split; reflexivity.
  - auto.
Qed.

Lemma fstate_of_insert (w : world) (f g : nat) (x : fstate)
    (fs : gmap nat fstate) :
  future_state w = <[f := x]> fs →
  fstate_of w g = if decide (f = g) then x else default FPending (fs !! g).
Proof.
  intros H. unfold fstate_of. rewrite H, lookup_insert. by destruct (decide (f = g)).
Qed.

(** A future gets its result at most once: over any sequence of frames
    and worker turns, [set_result] is called at most one more time on a
    pending future and never again on one that is done. *)
Lemma resolved_at_most_once (rs : list resolver) (w : world) (f : nat) :
  resolutions f (log (foldl resolve w rs))
  ≤ resolutions f (log w) + (if fstate_done (fstate_of w f) then 0 else 1).
Proof.
  revert w. induction rs as [|r rs IH]; intros w; simpl; [lia|].
  etransitivity; [apply IH|].
  destruct (resolve_cases w r) as [[Hlog Hfs]|(g & v & Hpend & Hlog & Hfs)].
  - rewrite Hlog. unfold fstate_of. rewrite Hfs. reflexivity.
  - rewrite Hlog, resolutions_app. simpl.
    rewrite (fstate_of_insert _ g f _ _ Hfs).
    destruct (decide (g = f)) as [->|Hne]; simpl.
    + rewrite Nat.eqb_refl. rewrite Hpend. simpl. lia.
    + apply Nat.eqb_neq in Hne. rewrite Hne. unfold fstate_of. lia.
Qed.

(** A frame whose id has no pending request resolves nothing, and is
    dropped when no consumer is registered under the id either. *)
Lemma late_reply_dropped (d : dispatcher) (msg idv : pyval) (key : pykey)
    (w : world) :
  py_get msg "id" = Ok idv → hashable idv = Some key →
  futures (self w) !! key = None →
  future_state (deliver d msg w) = future_state w
  ∧ log (deliver d msg w) = log w
  ∧ (callbacks (self w) !! key = None →
     run (consumer_frame d msg) w = (w, Finished (Ok d))).
Proof.
  intros Hid Hkey Hfut. unfold deliver, consumer_frame. simpl.
  rewrite Hid. simpl. rewrite Hkey. simpl. rewrite Hfut.
  destruct (bool_decide _ && bool_decide _); simpl; [auto|].
  destruct (callbacks (self w) !! key) as [cb|]; simpl; [|auto].
  destruct (callback_tasks d !! key); simpl.
  - destruct (callback_queues d !! key); simpl;
      repeat split; try reflexivity; intros; discriminate.
  - rewrite lookup_insert_eq. simpl.
    repeat split; try reflexivity; intros; discriminate.
Qed.

(** When [request] ends with the cancellation, the entry is gone. *)
Lemma request_cancelled_entry_gone (uri : string) (payload : pyval)
    (cmd_type : string) (uid : pyval) (key : pykey) (w : world) :
  hashable (if is_None uid then PInt (command_count (self w)) else uid)
    = Some key →
  wp anything anywhere
    (λ r w', r = Err CancelledError → futures (self w') !! key = None)
    (request uri payload cmd_type uid) w.
Proof.
  intros Hkey.
  unfold request, command, futures_setitem, futures_delitem, futures_contains,
    await_future, future_result, try_except.
  destruct (is_None uid) eqn:Euid; simpl in Hkey.
  - injection Hkey as <-. simpl.
    wp_auto; try congruence; simpl; try apply lookup_delete_eq;
      repeat match goal with
             | H : bool_decide _ = false |- _ => apply bool_decide_eq_false in H
             | H : ¬ is_Some _ |- _ => apply eq_None_not_Some in H
             | H : Err _ = Err CancelledError |- _ =>
                 injection H as ->; simpl in *; discriminate
             end; try assumption.
  - simpl. rewrite Hkey. simpl. rewrite Euid. simpl.
    wp_auto; try congruence; simpl; try apply lookup_delete_eq;
      repeat match goal with
             | H : bool_decide _ = false |- _ => apply bool_decide_eq_false in H
             | H : ¬ is_Some _ |- _ => apply eq_None_not_Some in H
             | H : Err _ = Err CancelledError |- _ =>
                 injection H as ->; simpl in *; discriminate
             end; try assumption.
Qed.

(** Cancelled while it waits for the reply, [request] removes the entry
    and lets the cancellation through, whatever the other tasks did. *)
Lemma request_cancelled_waiting (uri : string) (payload : pyval)
    (cmd_type : string) (uid : pyval) (key : pykey) (w : world)
    (r1 r2 : reaction) (v : pyval) :
  is_None (connection (self w)) = false →
  hashable (if is_None uid then PInt (command_count (self w)) else uid)
    = Some key →
  let p := request uri payload cmd_type uid in
  let w2 := interfere r1 (fst (run p w)) in
  wake r1 = Ok v → fstate_of w2 (next_handle w) = FPending →
  wake r2 = Err CancelledError →
  ∃ w', exec [r1; r2] p w = (w', Finished (Err CancelledError), [])
        ∧ futures (self w') = delete key (futures (self (interfere r2 w2))).
Proof.
  intros Hconn Hkey p w2 Hr1 Hpend Hr2. subst p w2.
  unfold request, command in *.
  destruct (is_None uid) eqn:Euid; simpl in Hkey.
  - injection Hkey as <-. simpl in *. rewrite Hconn in *. simpl in *.
    rewrite Hr1. simpl. rewrite Hpend. simpl. rewrite Hr2. simpl.
    destruct (futures _ !! _) eqn:E; simpl.
    + rewrite E. simpl. eexists. split; reflexivity.
    + eexists. split; [reflexivity|]. symmetry. by apply delete_id.
  - simpl in *. unfold futures_setitem, futures_contains, futures_delitem in *.
    rewrite Hkey in *. simpl in *. rewrite Euid in *. simpl in *.
    rewrite Hconn in *. simpl in *.
    rewrite Hr1. simpl. rewrite Hpend. simpl. rewrite Hr2. simpl.
    destruct (futures _ !! _) eqn:E; simpl.
    + rewrite E. simpl. eexists. split; reflexivity.
    + eexists. split; [reflexivity|]. symmetry. by apply delete_id.
Qed.

(** Cancelled while the frame is being sent, [request] does the same when
    the entry is still there. *)
Lemma request_cancelled_sending (uri : string) (payload : pyval)
    (cmd_type : string) (uid : pyval) (key : pykey) (w : world)
    (r1 : reaction) :
  is_None (connection (self w)) = false →
  hashable (if is_None uid then PInt (command_count (self w)) else uid)
    = Some key →
  let p := request uri payload cmd_type uid in
  let w2 := interfere r1 (fst (run p w)) in
  wake r1 = Err CancelledError → is_Some (futures (self w2) !! key) →
  ∃ w', exec [r1] p w = (w', Finished (Err CancelledError), [])
        ∧ futures (self w') = delete key (futures (self w2)).
Proof.
  intros Hconn Hkey p w2 Hr1 [g Hg]. subst p w2.
  unfold request, command in *.
  destruct (is_None uid) eqn:Euid; simpl in Hkey.
  - injection Hkey as <-. simpl in *. rewrite Hconn in *. simpl in *.
    rewrite Hr1. simpl. rewrite Hg. simpl. eexists. split; reflexivity.
  - simpl in *. unfold futures_setitem, futures_delitem in *.
    rewrite Hkey in *. simpl in *. rewrite Euid in *. simpl in *.
    rewrite Hconn in *. simpl in *.
    rewrite Hr1. simpl. rewrite Hg. simpl. eexists. split; reflexivity.
Qed.

(** C6.  Whenever [request] ends with the cancellation of its caller, the
    entry of its identifier is out of [futures]; cancelled while it waits
    for the reply it does end so, whatever the other tasks did, and
    cancelled while it sends, when the entry is still there.  A frame that
    comes for an identifier without entry changes no future, and is
    dropped when no consumer is registered under the identifier either.
    Over any sequence of frames and worker turns a future is given its
    result at most once. *)
Theorem cancelled_request_leaves_no_entry (uri : string) (payload : pyval)
    (cmd_type : string) (uid : pyval) (key : pykey) (w : world) :
  is_None (connection (self w)) = false →
  hashable (if is_None uid then PInt (command_count (self w)) else uid)
    = Some key →
  let p := request uri payload cmd_type uid in
  (∀ s w' rest,
     exec s p w = (w', Finished (Err CancelledError), rest) →
     futures (self w') !! key = None)
  ∧ (∀ r1 r2 v,
       wake r1 = Ok v →
       fstate_of (interfere r1 (fst (run p w))) (next_handle w) = FPending →
       wake r2 = Err CancelledError →
       ∃ w', exec [r1; r2] p w = (w', Finished (Err CancelledError), []))
  ∧ (∀ r1,
       wake r1 = Err CancelledError →
       is_Some (futures (self (interfere r1 (fst (run p w)))) !! key) →
       ∃ w', exec [r1] p w = (w', Finished (Err CancelledError), []))
  ∧ (∀ d msg idv w',
       py_get msg "id" = Ok idv → hashable idv = Some key →
       futures (self w') !! key = None →
       future_state (deliver d msg w') = future_state w'
       ∧ log (deliver d msg w') = log w'
       ∧ (callbacks (self w') !! key = None →
          run (consumer_frame d msg) w' = (w', Finished (Ok d))))
  ∧ (∀ rs w' f,
       resolutions f (log (foldl resolve w' rs))
       ≤ resolutions f (log w') + (if fstate_done (fstate_of w' f) then 0 else 1)).
Proof.
  intros Hconn Hkey p. repeat split.
  - intros s w' rest Hexec.
    exact (wp_sound _ _ _ _ _ _ _ _ _
             (request_cancelled_entry_gone uri payload cmd_type uid key w Hkey)
             (respects_anything s) Hexec eq_refl).
  - intros r1 r2 v H1 Hpend H2.
    destruct (request_cancelled_waiting uri payload cmd_type uid key w r1 r2 v
                Hconn Hkey H1 Hpend H2) as (w' & Hexec & _).
    by exists w'.
  - intros r1 H1 Hentry.
    destruct (request_cancelled_sending uri payload cmd_type uid key w r1
                Hconn Hkey H1 Hentry) as (w' & Hexec & _).
    by exists w'.
  - by apply (late_reply_dropped d msg idv key w').
  - by apply (late_reply_dropped d msg idv key w').
  - by apply (late_reply_dropped d msg idv key w').
  - apply resolved_at_most_once.
Qed.

Lemma cancelled_request_leaves_no_entry_witness :
  let w := empty_world connected_client in
  let p := request "audio/getVolume" PNone "request" PNone in
  let s := [quiet (Ok PNone); quiet (Err CancelledError)] in
  (is_None (connection (self w)) = false
   ∧ hashable (PInt (command_count (self w))) = Some (KInt 0))
  ∧ snd (fst (exec s p w)) = Finished (Err CancelledError)
  ∧ futures (self (fst (fst (exec s p w)))) !! KInt 0 = None.
Proof.
  intros w p s. split; [split; reflexivity|]. split; [reflexivity|].
  destruct (cancelled_request_leaves_no_entry "audio/getVolume" PNone "request"
              PNone (KInt 0) w eq_refl eq_refl) as (Hgone & _).
  apply (Hgone s (fst (fst (exec s p w))) []). reflexivity.
Defined.


(** ** The auxiliary input connection *)

(** C3, as the code has it.  An exception (not the cancellation) raised
    while the input connection is opened or written goes to the connect
    result when that future is pending and is dropped when it is done; in
    both cases [input_command] returns to its caller as if nothing had
    happened. *)
Theorem input_command_reports_to_connect_result (ep : endpoints)
    (message : pyval) (s rest : list reaction) (w w1 : world) (e : exn)
    (res : nat) :
  exec s (input_command_try ep message) w = (w1, Finished (Err e), rest) →
  is_Exception e = true →
  connect_result (self w1) = Some res →
  (fstate_of w1 res = FPending →
   exec s (input_command ep message) w
   = (with_log (EvSetException res e)
        (with_future_state (insert res (FException e)) w1),
      Finished (Ok tt), rest))
  ∧ (fstate_of w1 res ≠ FPending →
     exec s (input_command ep message) w = (w1, Finished (Ok tt), rest)).
Proof.
  intros Htry He Hres.
  unfold input_command, try_except. rewrite exec_bind, exec_attempt, Htry, He.
  split; intros Hst; apply exec_finished;
    unfold input_command_except; simpl; rewrite Hres; simpl.
  - rewrite Hst. simpl. rewrite Hst. reflexivity.
  - destruct (fstate_of w1 res); [contradiction|reflexivity..].
Qed.

Lemma input_command_reports_to_connect_result_witness :
  let s := [quiet (Err ConnectionClosedError)] in
  let w := with_future_state (insert 0 FPending) pointing_world in
  (exec s (input_command_try sample_endpoints (PStr "type:click")) w
   = (w, Finished (Err ConnectionClosedError), [])
   ∧ is_Exception ConnectionClosedError = true
   ∧ connect_result (self w) = Some 0
   ∧ fstate_of w 0 = FPending)
  ∧ exec s (input_command sample_endpoints (PStr "type:click")) w
    = (with_log (EvSetException 0 ConnectionClosedError)
         (with_future_state (insert 0 (FException ConnectionClosedError)) w),
       Finished (Ok tt), []).
Proof.
  intros s w. split; [repeat split|].
  exact (proj1 (input_command_reports_to_connect_result sample_endpoints
                  (PStr "type:click") s [] w w ConnectionClosedError 0
                  eq_refl eq_refl eq_refl) eq_refl).
Defined.

(** C3, as it is stated, fails: once the connect result is done, an
    exception raised while the input connection is written is not
    surfaced to the caller of [input_command], which returns normally. *)
Lemma input_command_swallows_failure :
  let outcome :=
    snd (fst (exec [quiet (Err ConnectionClosedError)]
                (input_command sample_endpoints (PStr "type:click"))
                pointing_world)) in
  fstate_done (fstate_of pointing_world 0) = true
  ∧ outcome = Finished (Ok tt)
  ∧ outcome ≠ Finished (Err ConnectionClosedError).
Proof.
  intros outcome.
  assert (H : outcome = Finished (Ok tt)) by reflexivity.
  split; [reflexivity|]. split; [exact H|]. rewrite H. discriminate.
Qed.

(** ** Teardown *)

Lemma wp_bind_run {A C} (R : world → world → Prop)
    (B : awaitable → world → Prop) (Q : result C → world → Prop)
    (p : coro A) (f : A → coro C) (w w' : world) (a : A) :
  run p w = (w', Finished (Ok a)) → wp R B Q (f a) w' → wp R B Q (bind p f) w.
Proof. intros Hrun Hf. apply wp_bind. by eapply wp_of_run. Qed.

(** A loop whose body returns without suspending does so too. *)
Lemma for_each_returns {A} (body : A → coro unit) (l : list A) (w : world) :
  (∀ x w, ∃ w', run (body x) w = (w', Finished (Ok tt))) →
  ∃ w', run (for_each l body) w = (w', Finished (Ok tt)).
Proof.
  intros Hbody. revert w. induction l as [|x l IH]; intros w; simpl.
  - by exists w.
  - rewrite run_bind. destruct (Hbody x w) as [w1 ->]. apply IH.
Qed.

(** The closing loop suspends on the shielded task only, and keeps what
    the other tasks keep. *)
Lemma shield_loop_keeps (R : world → world → Prop)
    (B : awaitable → world → Prop) (I : world → Prop) (fuel t : nat)
    (w : world) :
  (∀ t' x, B (AwShield t') x) → (∀ x y, R x y → I x → I y) →
  I w → wp R B (λ _ w', I w') (shield_loop fuel t) w.
Proof.
  intros HB HR. revert w. induction fuel as [|fuel IH]; intros w Hw; simpl.
  - destruct (task_state w !! t) as [[b [r|] c]|]; simpl; auto.
  - destruct (task_state w !! t) as [[b [r|] c]|]; simpl; auto;
      (split; [apply HB|]); intros w' x Hstay;
      destruct x as [v|e]; simpl; try destruct (is_CancelledError e); simpl;
      eauto.
Qed.

(** The [finally] block, wherever it starts: it suspends on the shielded
    closing task only, and what holds of a reset client and is kept by the
    other tasks holds when it ends. *)
Lemma connect_handler_finally_resets (R : world → world → Prop)
    (B : awaitable → world → Prop) (I : world → Prop) (fuel : nat)
    (w : world) :
  (∀ t x, B (AwShield t) x) → (∀ x y, R x y → I x → I y) →
  (∀ x, reset x → I x) →
  wp R B (λ _ w', I w') (connect_handler_finally fuel) w.
Proof.
  intros HB HR HI. unfold connect_handler_finally. simpl.
  destruct (for_each_returns
              (λ t, done ← task_done t; if negb done then task_cancel t else Ret tt)
              (handler_tasks w) w) as [w1 Hw1].
  { intros t x. unfold task_done, task_cancel. simpl.
    destruct (task_state x !! t) as [[b [r|] c]|]; simpl; eauto. }
  eapply wp_bind_run; [exact Hw1|]. simpl.
  destruct (for_each_returns future_cancel
              (map snd (map_to_list (futures (self w1)))) w1) as [w2 Hw2].
  { intros f x. unfold future_cancel. simpl.
    destruct (fstate_done (fstate_of x f)); simpl; eauto. }
  eapply wp_bind_run; [exact Hw2|]. simpl.
  destruct (negb (is_None (ws w2))); simpl;
    destruct (negb (is_None (input_connection (self w2)))); simpl;
    match goal with
    | |- wp _ _ _ (match ?l with _ => _ end) _ => destruct l; simpl
    end;
    try (apply HI; split; reflexivity);
    apply shield_loop_keeps; auto; apply HI; split; reflexivity.
Qed.

Lemma connect_handler_resets (REGISTRATION_MESSAGE : pyval) (fuel res : nat)
    (w : world) :
  wp stays_reset anywhere (λ _ w', reset w')
    (connect_handler REGISTRATION_MESSAGE fuel res) w.
Proof.
  unfold connect_handler.
  eapply wp_bind_run; [reflexivity|]. eapply wp_bind_run; [reflexivity|].
  apply wp_try_finally; [apply wp_any|].
  intros r w'. apply wp_bind.
  eapply wp_mono;
    [|apply (connect_handler_finally_resets stays_reset anywhere reset)].
  - intros [[]|e] w'' H; [destruct r|]; exact H.
  - intros t x. exact I.
  - intros x y H. exact H.
  - auto.
Qed.


Lemma sample_session_stays_reset : respects stays_reset sample_session.
Proof.
  unfold respects, sample_session.
  repeat match goal with
         | |- Forall _ (_ :: _) => constructor
         | |- Forall _ [] => constructor
         end;
    intros x; unfold stays_reset, reset; simpl; try tauto.
  destruct (is_None (connection (self x))) eqn:E; [tauto|].
  intros [Hc _]. rewrite Hc in E. discriminate.
Qed.


(** ** Connecting *)

(** The pairing exchange suspends on the socket and on the key file only,
    and leaves the locals of [connect_handler] as they are. *)
Lemma pairing_keeps_locals (REGISTRATION_MESSAGE : pyval) (res : nat)
    (sock : pyval) (w : world) :
  wp client_untouched (connect_suspension res)
    (λ _ w', handler_tasks w' = handler_tasks w ∧ ws w' = ws w)
    (pairing REGISTRATION_MESSAGE sock) w.
Proof.
  unfold pairing.
  repeat (simpl; intros; try wp_case;
          try match goal with
              | |- True ∧ _ => split; [exact I|]
              | H : client_untouched _ _ |- _ =>
                  destruct H as (? & ? & ? & ?)
              end).
  all: simpl in *; split; congruence.
Qed.

(** Starting the handlers: no suspension, and the client is left
    subscribing. *)
Lemma start_handlers_runs (sock : pyval) (w : world) :
  handler_tasks w = [] → ws w = sock →
  ∃ w' ts, run (start_handlers sock) w = (w', Finished (Ok tt))
           ∧ subscribing ts w'.
Proof.
  intros Hnil Hws. unfold start_handlers, add_handler_task, create_task.
  destruct (ping_interval (cfg (self w))) as [interval|] eqn:E.
  - eexists _, _. split; [simpl; rewrite E; reflexivity|].
    unfold subscribing, handlers_running, running_task. simpl.
    rewrite E, Hnil, Hws. repeat (split; [reflexivity|]).
    exists (next_handle w), (S (next_handle w)).
    split; [reflexivity|]. split; [lia|]. split.
    + rewrite lookup_insert_ne by lia. apply lookup_insert_eq.
    + apply lookup_insert_eq.
  - eexists _, _. split; [simpl; rewrite E; reflexivity|].
    unfold subscribing, handlers_running, running_task. simpl.
    rewrite E, Hnil, Hws. repeat (split; [reflexivity|]).
    exists (next_handle w). split; [reflexivity|]. apply lookup_insert_eq.
Qed.

(** The baseline subscriptions: there is none, so no suspension either;
    the client is left subscribing, with a power state. *)
Lemma baseline_subscriptions_runs (ts : list nat) (w : world) :
  subscribing ts w →
  ∃ w', run baseline_subscriptions w = (w', Finished (Ok tt))
        ∧ subscribing ts w'
        ∧ truthy (_power_state (mirrored (self w'))) = true.
Proof.
  intros Hsub. unfold baseline_subscriptions, subscribe_coros.
  destruct (truthy (_power_state (mirrored (self w)))) eqn:E.
  - eexists. split; [simpl; rewrite E; reflexivity|]. split; [exact Hsub|exact E].
  - eexists. split; [simpl; rewrite E; reflexivity|]. split; [exact Hsub|reflexivity].
Qed.

Lemma subscribing_untouched (ts : list nat) (x y : world) :
  client_untouched x y → subscribing ts x → subscribing ts y.
Proof.
  intros (Hs & Ht & Hh & Hw).
  unfold subscribing, handlers_running, running_task.
  rewrite Hs, Ht, Hh, Hw. tauto.
Qed.

(** Signalling: the observers may be waited for; if it ends well the
    client is ready. *)
Lemma signal_ready_ready (res : nat) (ts : list nat) (w : world) :
  subscribing ts w → truthy (_power_state (mirrored (self w))) = true →
  wp client_untouched (connect_suspension res)
    (λ r w', r = Ok tt → ready res ts w') (signal_ready res) w.
Proof.
  intros Hsub Hps.
  assert (Hfin : ∀ w', subscribing ts w' →
            truthy (_power_state (mirrored (self w'))) = true →
            doStateUpdate (self w') = true →
            wp client_untouched (connect_suspension res)
              (λ r w'', r = Ok tt → ready res ts w'')
              (future_set_result res (PBool true)) w').
  { intros w' Hsub' Hps' Hdo. unfold future_set_result. simpl.
    destruct (fstate_done (fstate_of w' res)); simpl; [discriminate|].
    intros _. unfold ready, fstate_of. simpl. rewrite lookup_insert_eq.
    repeat (split; [reflexivity || assumption|]). exact Hsub'. }
  unfold signal_ready, do_state_update_callbacks.
  eapply wp_bind_run; [reflexivity|]. simpl.
  destruct (state_update_callbacks (self w)) as [|cb cbs] eqn:E; simpl.
  - apply Hfin; [exact Hsub|exact Hps|reflexivity].
  - rewrite E. simpl. split; [exact I|]. intros w' x Hun.
    destruct x as [v|e]; simpl; [|discriminate].
    destruct Hun as (Hs & Ht & Hh & Hw).
    apply Hfin.
    + apply (subscribing_untouched ts
               (with_self (set_doStateUpdate true) w) w'); [by repeat split|].
      exact Hsub.
    + rewrite Hs. exact Hps.
    + rewrite Hs. reflexivity.
Qed.

(** The [try] block suspends on its handler tasks only when the client is
    ready, and on no batch of subscriptions. *)
Lemma connect_handler_try_ready (REGISTRATION_MESSAGE : pyval) (res : nat)
    (w : world) :
  handler_tasks w = [] →
  wp client_untouched (connect_suspension res) (λ _ _, True)
    (connect_handler_try REGISTRATION_MESSAGE res) w.
Proof.
  intros Hnil. unfold connect_handler_try.
  simpl. split; [exact I|]. intros w1 x (Hs & Ht & Hh & Hw).
  destruct x as [sock|e]; simpl; [|exact I].
  apply wp_bind.
  eapply wp_mono;
    [|exact (pairing_keeps_locals REGISTRATION_MESSAGE res sock (with_ws sock w1))].
  intros [[]|e] w2 [Hh2 Hw2]; [|exact I].
  simpl in Hh2, Hw2. rewrite Hh, Hnil in Hh2.
  destruct (start_handlers_runs sock w2 Hh2 Hw2) as (w3 & ts & Hrun3 & Hsub3).
  eapply wp_bind_run; [exact Hrun3|].
  destruct (baseline_subscriptions_runs ts w3 Hsub3) as (w4 & Hrun4 & Hsub4 & Hps4).
  eapply wp_bind_run; [exact Hrun4|].
  apply wp_bind.
  eapply wp_mono; [|exact (signal_ready_ready res ts w4 Hsub4 Hps4)].
  intros [[]|e] w5 Hready; [|exact I].
  simpl. split.
  - specialize (Hready eq_refl).
    replace (handler_tasks w5) with ts; [exact Hready|].
    symmetry. apply Hready.
  - intros w6 x _. destruct x; exact I.
Qed.

(** [connect_handler] as a whole: whatever the transport and the
    appliance answer, it waits for tasks only when it is ready, and then
    for its handler tasks. *)
Lemma connect_handler_suspends (REGISTRATION_MESSAGE : pyval) (fuel res : nat)
    (w : world) :
  wp client_untouched (connect_suspension res) (λ _ _, True)
    (connect_handler REGISTRATION_MESSAGE fuel res) w.
Proof.
  unfold connect_handler.
  eapply wp_bind_run; [reflexivity|]. eapply wp_bind_run; [reflexivity|].
  apply wp_try_finally.
  - unfold try_except. apply wp_bind, wp_attempt.
    eapply wp_mono;
      [|apply (connect_handler_try_ready REGISTRATION_MESSAGE res); reflexivity].
    intros [[]|e] w' _; simpl; [exact I|].
    destruct (is_Exception e); simpl; [|exact I].
    unfold future_done, future_set_exception. simpl.
    repeat match goal with
           | |- context [if ?c then _ else _] => destruct c; simpl
           end; exact I.
  - intros r w'. apply wp_bind.
    eapply wp_mono;
      [|apply (connect_handler_finally_resets client_untouched
                 (connect_suspension res) (λ _, True))]; auto.
    + intros [[]|e] w'' _; [destruct r|]; exact I.
    + intros t x. exact I.
Qed.

(** C1, as the code has it.  [connect_handler] issues no baseline
    subscription: the eight of them are commented out of its set, which is
    empty.  Whenever it is left waiting for tasks, it waits for the first
    of its handler tasks to end (the dispatcher, and the keepalive monitor
    if a ping interval is configured), never for a batch of
    subscriptions; and by then it has put the power-state placeholder in
    place, raised the ready flag and signalled the connect caller with
    success, while the callbacks table and the futures table are as empty
    as it made them.  The other tasks are taken to leave the client, its
    tasks and the locals of [connect_handler] alone meanwhile. *)
Theorem connect_handler_ready_without_subscriptions
    (REGISTRATION_MESSAGE : pyval) (fuel res : nat) (s : list reaction)
    (w : world) (ts : list nat) (first_completed : bool) :
  let end_of_script := exec s (connect_handler REGISTRATION_MESSAGE fuel res) w in
  respects client_untouched s →
  blocked_on end_of_script.1.2 = Some (AwWait ts first_completed) →
  first_completed = true
  ∧ handlers_running ts end_of_script.1.1
  ∧ callbacks (self end_of_script.1.1) = ∅
  ∧ futures (self end_of_script.1.1) = ∅
  ∧ truthy (_power_state (mirrored (self end_of_script.1.1))) = true
  ∧ doStateUpdate (self end_of_script.1.1) = true
  ∧ fstate_of end_of_script.1.1 res = FResult (PBool true).
Proof.
  intros end_of_script Hs Hblocked.
  destruct end_of_script as [[w' st] rest] eqn:Hexec. simpl in *.
  destruct st as [r|a k|]; try discriminate.
  injection Hblocked as ->.
  pose proof (wp_sound_blocked _ _ _ _ _ _ _ _ _ _
                (connect_handler_suspends REGISTRATION_MESSAGE fuel res w)
                Hs Hexec) as Hb.
  simpl in Hb. destruct first_completed; [|contradiction].
  destruct Hb as (Hres & Hdo & Hps & Hcb & Hfut & _ & _ & Hrun).
  repeat split; assumption.
Qed.

Lemma connect_handler_ready_without_subscriptions_witness :
  let s := take 3 sample_session in
  let end_of_script := exec s (connect_handler sample_registration 1 0)
                         connecting_world in
  (respects client_untouched s
   ∧ blocked_on end_of_script.1.2 = Some (AwWait [1; 2] true))
  ∧ callbacks (self end_of_script.1.1) = ∅
  ∧ fstate_of end_of_script.1.1 0 = FResult (PBool true).
Proof.
  intros s end_of_script.
  assert (Hs : respects client_untouched s).
  { unfold respects, s, sample_session. simpl.
    repeat match goal with
           | |- Forall _ (_ :: _) => constructor
           | |- Forall _ [] => constructor
           end; intros x; repeat split. }
  assert (Hb : blocked_on end_of_script.1.2 = Some (AwWait [1; 2] true))
    by (vm_compute; reflexivity).
  split; [split; [exact Hs | exact Hb]|].
  pose proof (connect_handler_ready_without_subscriptions sample_registration
                1 0 s connecting_world [1; 2] true Hs Hb) as H.
  split; [exact (proj1 (proj2 (proj2 H)))|].
  exact (proj2 (proj2 (proj2 (proj2 (proj2 (proj2 H)))))).
Defined.

(** C1, as it is stated, fails: on a connection attempt that succeeds,
    [connect_handler] signals success and raises the ready flag without
    having issued a subscription.  It has waited for the transport, the
    registration and its answer, and then for its handler tasks: for no
    batch of subscriptions; the tasks it has created are the dispatcher
    and the keepalive monitor; no consumer is registered. *)
Lemma connect_handler_issues_no_subscription :
  let s := take 3 sample_session in
  let p := connect_handler sample_registration 1 0 in
  let w' := (exec s p connecting_world).1.1 in
  fstate_of w' 0 = FResult (PBool true)
  ∧ doStateUpdate (self w') = true
  ∧ suspensions s p connecting_world
    = [AwConnect "192.168.1.18" 3000 2;
       AwSend (PObj 1)
         (PDict [("type", PStr "register");
                 ("payload", PDict [("client-key", PStr "abc123")])]);
       AwRecv (PObj 1); AwWait [1; 2] true]
  ∧ map_to_list (task_state w')
    = [(2, {| body := ping_handler_task (PObj 1) 1 (Some 20%Z);
              outcome := None; cancel_requested := false |});
       (1, {| body := consumer_handler_task (PObj 1);
              outcome := None; cancel_requested := false |})]
  ∧ callbacks (self w') = ∅.
Proof. vm_compute. repeat split. Qed.

(** ** Volume steps *)

(** What the [try] block establishes, the [finally] block may use. *)
Lemma wp_try_finally_post {A} (R : world → world → Prop)
    (B : awaitable → world → Prop) (P : world → Prop)
    (Q : result A → world → Prop) (p : coro A) (fin : coro unit) (w : world) :
  wp R B (λ _ w', P w') p w →
  (∀ r w', P w' → wp R B Q (fin;; lift r) w') →
  wp R B Q (try_finally p fin) w.
Proof.
  intros Hp Hfin. unfold try_finally. apply wp_bind, wp_attempt.
  eapply wp_mono; [|exact Hp]. intros r w' HP. apply Hfin, HP.
Qed.

(** Coroutines without fuel: they are put together from such, *)
Lemma fuel_free_bind {A C} (p : coro A) (f : A → coro C) :
  fuel_free p → (∀ a, fuel_free (f a)) → fuel_free (bind p f).
Proof.
  intros Hp Hf. induction p as [a|e|k IH|w1 k IH|a k IH|]; simpl in *; auto.
Qed.

Lemma fuel_free_attempt {A} (p : coro A) : fuel_free p → fuel_free (attempt p).
Proof.
  intros Hp. induction p as [a|e|k IH|w1 k IH|a k IH|]; simpl in *; auto.
Qed.

Lemma fuel_free_lift {A} (r : result A) : fuel_free (lift r).
Proof. destruct r; exact I. Qed.

(** and a run of one is never out of fuel. *)
Lemma fuel_free_run {A} (p : coro A) (w : world) :
  fuel_free p →
  match run p w with
  | (_, Blocked _ k) => ∀ x, fuel_free (k x)
  | (_, Exhausted) => False
  | _ => True
  end.
Proof.
  revert w. induction p as [a|e|k IH|w1 k IH|a k IH|]; simpl; intros w0 Hp; auto.
  - apply IH, Hp.
  - apply IH, Hp.
Qed.

Ltac fuel_case :=
  match goal with
  | |- fuel_free (bind _ _) => apply fuel_free_bind
  | |- fuel_free (attempt _) => apply fuel_free_attempt
  | |- fuel_free (lift _) => apply fuel_free_lift
  | |- fuel_free (match (if ?b then _ else _) with _ => _ end) => destruct b
  | |- fuel_free (if ?b then _ else _) => destruct b
  | |- fuel_free (match ?x with _ => _ end) => destruct x
  end.

Lemma request_fuel_free (uri : string) (payload : pyval) (cmd_type : string)
    (uid : pyval) : fuel_free (request uri payload cmd_type uid).
Proof.
  unfold request, command, futures_setitem, futures_delitem, futures_contains,
    await_future, future_result, try_except, request_result, new_future,
    next_command_count, future_done.
  repeat (simpl; intros; try fuel_case); auto.
Qed.

(** A request made with the lock held suspends on the socket and on its
    future, and leaves the lock, the route and the pause as they are. *)
Lemma request_in_section (ms : Z) (uri : string) (payload : pyval)
    (cmd_type : string) (uid : pyval) (w : world) :
  _volume_step_lock (self w) = true → delayed ms w →
  wp keeps_volume_steps (section_suspension ms)
    (λ _ w', _volume_step_lock (self w') = true ∧ delayed ms w')
    (request uri payload cmd_type uid) w.
Proof.
  intros Hlock [Hso Hd].
  unfold request, command, futures_setitem, futures_delitem, futures_contains,
    await_future, future_result, try_except.
  repeat (simpl; intros; try wp_case;
          try match goal with
              | |- section_suspension _ _ _ ∧ _ => split
              | H : keeps_volume_steps _ _ |- _ => destruct H as (? & ? & ?)
              end).
  all: unfold section_suspension, delayed in *; simpl in *;
    repeat split; congruence.
Qed.

(** Order in a history that grows at its end. *)
Lemma precedes_snoc {A} (x y e : A) (l : list A) :
  precedes x y (l ++ [e]) → precedes x y l ∨ (x ∈ l ∧ y = e).
Proof.
  intros (l1 & l2 & l3 & H).
  destruct l3 as [|z l3 _] using rev_ind.
  - right. change (l ++ [e] = l1 ++ (x :: l2) ++ [y]) in H.
    rewrite app_assoc in H. apply app_inj_tail in H as [-> ->].
    split; [|reflexivity]. apply elem_of_app. right. apply list_elem_of_here.
  - left. exists l1, l2, l3.
    assert (H' : l ++ [e] = (l1 ++ x :: l2 ++ y :: l3) ++ [z]).
    { rewrite H. rewrite <- !app_assoc. simpl. rewrite <- !app_assoc. reflexivity. }
    apply app_inj_tail in H' as [-> _]. reflexivity.
Qed.

Lemma precedes_elem_of {A} (x y : A) (l : list A) : precedes x y l → x ∈ l.
Proof.
  intros (l1 & l2 & l3 & ->). apply elem_of_app. right. apply list_elem_of_here.
Qed.

(** The rely is a preorder, and keeps the route. *)
Lemma keeps_volume_steps_refl (w : world) : keeps_volume_steps w w.
Proof. repeat split. Qed.

Lemma keeps_volume_steps_trans (x y z : world) :
  keeps_volume_steps x y → keeps_volume_steps y z → keeps_volume_steps x z.
Proof.
  unfold keeps_volume_steps. intros (? & ? & ?) (? & ? & ?).
  repeat split; congruence.
Qed.

Lemma keeps_volume_steps_delayed (ms : Z) (x y : world) :
  keeps_volume_steps x y → delayed ms x → delayed ms y.
Proof.
  unfold keeps_volume_steps, delayed. intros (? & ? & ?) [? ?].
  split; congruence.
Qed.

Lemma external_arc_delays :
  bool_decide (KStr "external_arc" ∈ SOUND_OUTPUTS_TO_DELAY_CONSECUTIVE_VOLUME_STEPS)
  = true.
Proof. apply bool_decide_eq_true_2. by apply elem_of_singleton. Qed.

Section VolumeSteps.
Variable ms : Z.

(** Going through the section: suspended with the lock held, on the
    request or on the pause of [ms], and out of it with the lock free. *)
Abbreviation in_the_section :=
  (wp keeps_volume_steps (section_suspension ms) (λ _ w', section_left ms w')).

(** The body of [async with self._volume_step_lock], once the lock is
    taken. *)
Lemma volume_step_section (endpoint : string) (w : world) :
  _volume_step_lock (self w) = true → delayed ms w →
  in_the_section
    (try_finally
       (response ← request endpoint PNone "request" PNone;
        await (AwSleep ms);; Ret response)
       lock_release) w.
Proof.
  intros Hlock Hd.
  apply (wp_try_finally_post _ _
           (λ w', _volume_step_lock (self w') = true ∧ delayed ms w')).
  - apply wp_bind. eapply wp_mono; [|apply (request_in_section ms); assumption].
    intros [v|e] w' [Hl' Hd']; [|auto]. simpl.
    split; [unfold section_suspension; auto|]. intros w'' x Hk.
    assert (_volume_step_lock (self w'') = true ∧ delayed ms w'').
    { split; [destruct Hk as [-> _]; exact Hl'|].
      eapply keeps_volume_steps_delayed; eauto. }
    destruct x; simpl; assumption.
  - intros r w' [Hl' Hd']. unfold lock_release. simpl.
    destruct r; simpl; split; auto.
Qed.

(** A volume step that finds the lock free takes it at once, *)
Lemma volume_step_free (endpoint : string) (w : world) :
  delayed ms w → _volume_step_lock (self w) = false →
  in_the_section (_volume_step endpoint) w.
Proof.
  intros Hd Hlock. pose proof Hd as [Hso Hms].
  pose proof (volume_step_section endpoint) as Hsection.
  unfold _volume_step, lock_acquire.
  remember (request endpoint PNone "request" PNone) as req. simpl.
  rewrite Hso. simpl. rewrite external_arc_delays, Hms. simpl.
  rewrite Hlock. simpl.
  apply Hsection; [reflexivity|exact Hd].
Qed.

(** and one that finds it held waits for it, and has changed nothing. *)
Lemma volume_step_held (endpoint : string) (w : world) :
  delayed ms w → _volume_step_lock (self w) = true →
  ∃ k, run (_volume_step endpoint) w = (w, Blocked AwLock k)
       ∧ ∀ w', delayed ms w' → _volume_step_lock (self w') = false →
               in_the_section (k (Ok PNone)) w'.
Proof.
  intros Hd Hlock. pose proof Hd as [Hso Hms].
  pose proof (volume_step_section endpoint) as Hsection.
  unfold _volume_step, lock_acquire.
  remember (request endpoint PNone "request" PNone) as req.
  eexists. split.
  - simpl. rewrite Hso. simpl. rewrite external_arc_delays, Hms. simpl.
    rewrite Hlock. simpl. reflexivity.
  - intros w' Hd' Hlock'. simpl.
    apply Hsection; [reflexivity|exact Hd'].
Qed.

Lemma volume_step_fuel_free (endpoint : string) :
  fuel_free (_volume_step endpoint).
Proof.
  unfold _volume_step, lock_acquire, lock_release, try_finally.
  repeat first
    [ apply request_fuel_free
    | fuel_case
    | progress intros
    | exact I
    | progress (unfold get, modify, await; simpl) ].
Qed.

(** *** The event loop *)

Local Open Scope Z_scope.

(** What a call out of the section is does not depend on the world; what
    the call in the section is is kept by the rely. *)
Lemma call_ok_shared (w w' : world) (c : call) :
  holds_lock c = false → call_ok ms w c → call_ok ms w' c.
Proof.
  destruct c as [p|a k since|r|]; simpl; auto.
  destruct a; simpl; try discriminate; auto.
Qed.

Lemma call_ok_kept (w w' : world) (c : call) :
  keeps_volume_steps w w' → call_ok ms w c → call_ok ms w' c.
Proof.
  intros Hk. destruct c as [p|a k since|r|]; simpl; auto.
  destruct a; simpl; auto; intros (Hd & Hf & H);
    (split; [exact Hd|]); (split; [exact Hf|]);
    intros w'' x Hk'; apply H; eapply keeps_volume_steps_trans; eauto.
Qed.

(** The pauses begun so far, when the call [i] goes on. *)
Lemma sleeps_kept (σ : loop) (i : nat) (c c' : call) :
  paced ms σ → calls σ !! i = Some c →
  (∀ d k t1, c = Waiting (AwSleep d) k t1 → t1 + ms ≤ clock σ) →
  ∀ j d t1, (j, AwSleep d, t1) ∈ history σ →
    d = ms ∧ ((∃ k, <[i := c']> (calls σ) !! j = Some (Waiting (AwSleep d) k t1))
              ∨ t1 + ms ≤ clock σ).
Proof.
  intros Hσ Hi Hslept j d t1 Hin.
  destruct (paced_sleeps _ _ Hσ j d t1 Hin) as [-> [[k Hk]|Hel]];
    (split; [reflexivity|]); [|right; exact Hel].
  destruct (decide (j = i)) as [->|Hne].
  - right. rewrite Hi in Hk. injection Hk as ->. eapply Hslept; reflexivity.
  - left. exists k. rewrite list_lookup_insert_ne by auto. exact Hk.
Qed.

(** A call that takes or holds the lock runs on. *)
Lemma paced_settle (σ : loop) (i : nat) (c : call) (p : coro pyval) :
  paced ms σ → calls σ !! i = Some c →
  (∀ j cj, j ≠ i → calls σ !! j = Some cj → holds_lock cj = false) →
  (∀ d k t1, c = Waiting (AwSleep d) k t1 → t1 + ms ≤ clock σ) →
  fuel_free p →
  wp keeps_volume_steps (section_suspension ms) (λ _ w', section_left ms w')
    p (shared σ) →
  paced ms (settle i σ (run p (shared σ))).
Proof.
  intros Hσ Hi Hothers Hslept Hfuel Hwp.
  pose proof (lookup_lt_Some _ _ _ Hi) as Hlt.
  apply wp_run in Hwp. apply (fuel_free_run p (shared σ)) in Hfuel.
  destruct (run p (shared σ)) as [w1 [r|a k|]]; simpl in *; [| |contradiction].
  - destruct Hwp as [Hl Hd]. constructor; simpl.
    + exact Hd.
    + intros j cj Hj. destruct (decide (j = i)) as [->|Hne].
      * rewrite list_lookup_insert_eq in Hj by exact Hlt. by injection Hj as <-.
      * rewrite list_lookup_insert_ne in Hj by auto.
        apply (call_ok_shared (shared σ)); [eapply Hothers; eauto|].
        eapply paced_calls; eauto.
    + intros j cj Hj Hh. destruct (decide (j = i)) as [->|Hne].
      * rewrite list_lookup_insert_eq in Hj by exact Hlt.
        injection Hj as <-. discriminate.
      * rewrite list_lookup_insert_ne in Hj by auto.
        rewrite (Hothers j cj Hne Hj) in Hh. discriminate.
    + intros j j' cj cj' Hj Hj' Hh Hh'. destruct (decide (j = i)) as [->|Hne].
      * rewrite list_lookup_insert_eq in Hj by exact Hlt.
        injection Hj as <-. discriminate.
      * rewrite list_lookup_insert_ne in Hj by auto.
        rewrite (Hothers j cj Hne Hj) in Hh. discriminate.
    + eapply sleeps_kept; eauto.
    + exact (paced_sends _ _ Hσ).
  - destruct Hwp as [(Hl & Hd & Ha) Hk]. constructor; simpl.
    + exact Hd.
    + intros j cj Hj. destruct (decide (j = i)) as [->|Hne].
      * rewrite list_lookup_insert_eq in Hj by exact Hlt. injection Hj as <-.
        destruct a; try contradiction; simpl;
          (split; [intros ? [= <-] || (intros; discriminate); exact Ha|]); auto.
      * rewrite list_lookup_insert_ne in Hj by auto.
        apply (call_ok_shared (shared σ)); [eapply Hothers; eauto|].
        eapply paced_calls; eauto.
    + intros; exact Hl.
    + intros j j' cj cj' Hj Hj' Hh Hh'.
      destruct (decide (j = i)) as [->|Hne];
        destruct (decide (j' = i)) as [->|Hne']; auto.
      * rewrite list_lookup_insert_ne in Hj' by auto.
        rewrite (Hothers j' cj' Hne' Hj') in Hh'. discriminate.
      * rewrite list_lookup_insert_ne in Hj by auto.
        rewrite (Hothers j cj Hne Hj) in Hh. discriminate.
      * rewrite list_lookup_insert_ne in Hj by auto.
        rewrite (Hothers j cj Hne Hj) in Hh. discriminate.
    + intros j d t1 Hin. apply elem_of_app in Hin as [Hin|Hin].
      * eapply sleeps_kept; eauto.
      * apply list_elem_of_singleton in Hin. injection Hin as -> <- ->.
        simpl in Ha. split; [exact Ha|]. left. exists k.
        apply list_lookup_insert_eq, Hlt.
    + intros j j' d conn data t1 t2 Hne Hprec.
      apply precedes_snoc in Hprec as [Hprec|[Hin Heq]].
      * eapply paced_sends; eauto.
      * injection Heq as -> <- ->.
        destruct (paced_sleeps _ _ Hσ j d t1 Hin) as [-> [[k' Hk']|Hel]];
          [|exact Hel].
        pose proof (Hothers j _ Hne Hk') as Hh. discriminate.
Qed.

(** A call that finds the lock held waits for it. *)
Lemma paced_wait (σ : loop) (i : nat) (p : coro pyval)
    (k : result pyval → coro pyval) :
  paced ms σ → calls σ !! i = Some (Fresh p) →
  call_ok ms (shared σ) (Waiting AwLock k (clock σ)) →
  paced ms (settle i σ (shared σ, Blocked AwLock k)).
Proof.
  intros Hσ Hi Hk.
  pose proof (lookup_lt_Some _ _ _ Hi) as Hlt.
  constructor; simpl.
  - exact (paced_route _ _ Hσ).
  - intros j cj Hj. destruct (decide (j = i)) as [->|Hne].
    + rewrite list_lookup_insert_eq in Hj by exact Hlt. injection Hj as <-.
      exact Hk.
    + rewrite list_lookup_insert_ne in Hj by auto. eapply paced_calls; eauto.
  - intros j cj Hj Hh. destruct (decide (j = i)) as [->|Hne].
    + rewrite list_lookup_insert_eq in Hj by exact Hlt.
      injection Hj as <-. discriminate.
    + rewrite list_lookup_insert_ne in Hj by auto. eapply paced_lock; eauto.
  - intros j j' cj cj' Hj Hj' Hh Hh'.
    destruct (decide (j = i)) as [->|Hne].
    { rewrite list_lookup_insert_eq in Hj by exact Hlt.
      injection Hj as <-. discriminate. }
    destruct (decide (j' = i)) as [->|Hne'].
    { rewrite list_lookup_insert_eq in Hj' by exact Hlt.
      injection Hj' as <-. discriminate. }
    rewrite list_lookup_insert_ne in Hj by auto.
    rewrite list_lookup_insert_ne in Hj' by auto.
    eapply paced_holder; eauto.
  - intros j d t1 Hin. apply elem_of_app in Hin as [Hin|Hin].
    + eapply sleeps_kept; eauto. intros; discriminate.
    + apply list_elem_of_singleton in Hin. discriminate.
  - intros j j' d conn data t1 t2 Hne Hprec.
    apply precedes_snoc in Hprec as [Hprec|[Hin Heq]].
    + eapply paced_sends; eauto.
    + discriminate.
Qed.

(** Every action of the event loop keeps it paced. *)
Lemma paced_step (act : action) (σ σ' : loop) :
  paced ms σ → permitted keeps_volume_steps act → loop_do act σ = Some σ' →
  paced ms σ'.
Proof.
  intros Hσ Hact Hdo. destruct act as [d|f|i|i x]; simpl in *.
  - destruct (0 <=? d) eqn:Hd; [|discriminate]. injection Hdo as <-.
    apply Z.leb_le in Hd. destruct Hσ as [Hr Hc Hl Hh Hs Hp].
    constructor; simpl; auto.
    intros j d' t1 Hin. destruct (Hs j d' t1 Hin) as [-> [?|?]];
      split; auto. right. lia.
  - injection Hdo as <-. destruct Hσ as [Hr Hc Hl Hh Hs Hp].
    constructor; simpl; auto.
    + eapply keeps_volume_steps_delayed; eauto.
    + intros j cj Hj. eapply call_ok_kept; eauto.
    + intros j cj Hj Hhj. destruct (Hact (shared σ)) as [-> _]. eauto.
  - destruct (calls σ !! i) as [[p| | |]|] eqn:Hi; try discriminate.
    injection Hdo as <-.
    destruct (paced_calls _ _ Hσ i _ Hi) as [e ->].
    destruct (_volume_step_lock (self (shared σ))) eqn:Hlock.
    + destruct (volume_step_held e (shared σ) (paced_route _ _ Hσ) Hlock)
        as (k & Hrun & Hk).
      pose proof (fuel_free_run _ (shared σ) (volume_step_fuel_free e)) as Hf.
      rewrite Hrun in Hf |- *.
      eapply paced_wait; eauto. split; assumption.
    + eapply paced_settle; eauto.
      * intros j cj _ Hj. destruct (holds_lock cj) eqn:Hh; [|reflexivity].
        rewrite (paced_lock _ _ Hσ j cj Hj Hh) in Hlock. discriminate.
      * intros; discriminate.
      * apply volume_step_fuel_free.
      * apply volume_step_free; [exact (paced_route _ _ Hσ)|exact Hlock].
  - destruct (calls σ !! i) as [[|a k since| |]|] eqn:Hi; try discriminate.
    destruct (may_wake a since x (clock σ) (shared σ)) eqn:Hwake;
      [|discriminate].
    injection Hdo as <-.
    pose proof (paced_calls _ _ Hσ i _ Hi) as Hok.
    assert (Ha : a = AwLock ∨ a ≠ AwLock)
      by (destruct a; auto; right; discriminate).
    destruct Ha as [->|Ha].
    + simpl in Hwake, Hok. destruct x as [[]|]; try discriminate.
      apply negb_true_iff in Hwake. destruct Hok as [Hf Hk].
      eapply paced_settle; eauto.
      * intros j cj _ Hj. destruct (holds_lock cj) eqn:Hh; [|reflexivity].
        rewrite (paced_lock _ _ Hσ j cj Hj Hh) in Hwake. discriminate.
      * intros; discriminate.
      * apply Hk; [exact (paced_route _ _ Hσ)|exact Hwake].
    + assert (Hh : holds_lock (Waiting a k since) = true)
        by (destruct a; auto; contradiction).
      assert (Hk : (∀ d, a = AwSleep d → d = ms)
                   ∧ (∀ x, fuel_free (k x))
                   ∧ ∀ w' x, keeps_volume_steps (shared σ) w' →
                       wp keeps_volume_steps (section_suspension ms)
                         (λ _ w'', section_left ms w'') (k x) w')
        by (destruct a; auto; contradiction).
      destruct Hk as (Hd & Hf & Hk).
      eapply paced_settle; eauto.
      * intros j cj Hne Hj. destruct (holds_lock cj) eqn:Hh'; [|reflexivity].
        destruct Hne. eapply paced_holder; eauto.
      * intros d k' t1 [= -> _ ->]. simpl in Hwake.
        destruct x as [[]|]; try discriminate. apply Z.leb_le in Hwake.
        rewrite <- (Hd d eq_refl). exact Hwake.
      * apply Hk, keeps_volume_steps_refl.
Qed.

End VolumeSteps.

(** *** Without a pause *)

(** [wp] is sound for the suspensions along a run as well. *)
Lemma wp_suspensions {A} (R : world → world → Prop)
    (B : awaitable → world → Prop) (Q : result A → world → Prop)
    (s : list reaction) (p : coro A) (w : world) :
  wp R B Q p w → respects R s →
  Forall (λ a, ∃ w', B a w') (suspensions s p w).
Proof.
  revert p w. induction s as [|x s IH]; intros p w Hwp Hs; simpl;
    apply wp_run in Hwp; destruct (run p w) as [w1 [r|a k|]]; auto.
  - destruct Hwp as [Hb _]. constructor; [eauto|constructor].
  - destruct Hwp as [Hb Hk]. inversion Hs as [|? ? Hx Hs']; subst.
    constructor; [eauto|]. apply IH; [apply Hk, Hx|exact Hs'].
Qed.

Lemma suspensions_run_eq {A} (s : list reaction) (p p' : coro A) (w w' : world) :
  run p w = run p' w' → suspensions s p w = suspensions s p' w'.
Proof. intros H. destruct s; simpl; rewrite H; reflexivity. Qed.

(** A request waits neither for the lock nor for a pause. *)
Lemma request_plain (uri : string) (payload : pyval) (cmd_type : string)
    (uid : pyval) (w : world) :
  wp anything (λ a _, plain a) (λ _ _, True) (request uri payload cmd_type uid) w.
Proof.
  unfold request, command, futures_setitem, futures_delitem, futures_contains,
    await_future, future_result, try_except.
  repeat (simpl; intros; try wp_case;
          try match goal with |- True ∧ _ => split; [exact I|] end).
  all: exact I.
Qed.

(** Without a pause to make, a volume step is its request. *)
Lemma volume_step_plain (endpoint : string) (w : world) :
  undelayed w →
  run (_volume_step endpoint) w = run (request endpoint PNone "request" PNone) w.
Proof.
  unfold undelayed, _volume_step. intros Hun.
  remember (request endpoint PNone "request" PNone) as req. simpl.
  destruct (hashable (_sound_output (mirrored (self w)))) as [k|];
    [|contradiction]. simpl.
  destruct Hun as [Hk|Hd].
  - rewrite bool_decide_eq_false_2 by exact Hk. reflexivity.
  - rewrite Hd. destruct (bool_decide _); reflexivity.
Qed.


